(** * TMC2130 linearity correction: wave generation, MSLUT compression, step planning

    A shallow embedding of [tmc2130_linearity.py]:
    - [Generator]: [_tmc2130_calc_constant_torque_value] and
      [_generate_constant_torque_wave], over IEEE binary64 floats;
    - [Compressor]: [_write_wave_table], with the register writes issued through
      [_set_tmc_field] recorded as a trace;
    - [Planner]: the direction and step-count computation of [_goto_step]. *)

From Stdlib Require Import ZArith List Lia Bool Floats.
Import ListNotations.

#[local] Set Warnings "-inexact-float".

(** Python exceptions that the modelled functions can raise. *)
Inductive exn : Type :=
  | RuntimeError
  | IndexError.

(** * Wave generation *)
Module Generator.

#[local] Open Scope Z_scope.

Notation "x <- c1 ;; c2" :=
  (match c1 with Some x => c2 | None => None end)
  (at level 61, c1 at next level, right associativity).

(** The transcendental functions come from the platform's C library; the
    embedding takes them as a parameter.  [m_pow] returns [None] where Python's
    [pow] on floats raises or leaves the floats (a complex result). *)
Record libm : Type := {
  m_sin : float -> float;
  m_pow : float -> float -> option float
}.

(** [float(z)] for an integer [z]. *)
Definition float_of_int (z : Z) : float :=
  if z <? 0 then (- of_uint63 (Uint63.of_Z (- z)))%float
  else of_uint63 (Uint63.of_Z z).

(** The integers [m] and [e] with [|x| = m * 2^e], for a finite nonzero [x]:
    the 53-bit mantissa and the exponent that goes with it. *)
Definition decode (x : float) : Z * Z :=
  let (r, e) := Z.frexp x in
  (Uint63.to_Z (normfr_mantissa r), e - prec).

(** [int(x)]: truncation toward zero; raises on nan and on the infinities.
    [Z.shiftl m e] is the floor of [m * 2^e], for either sign of [e]. *)
Definition py_int (x : float) : option Z :=
  if is_nan x || is_infinity x then None
  else if is_zero x then Some 0
  else
    let (m, e) := decode x in
    let v := Z.shiftl m e in
    Some (if (x <? 0)%float then - v else v).

(** [int(math.floor(x))]: raises on nan and on the infinities. *)
Definition py_floor (x : float) : option Z :=
  if is_nan x || is_infinity x then None
  else if is_zero x then Some 0
  else
    let (m, e) := decode x in
    Some (Z.shiftl (if (x <? 0)%float then - m else m) e).

(** [math.sqrt(x)]: raises [ValueError] on a negative argument. *)
Definition py_sqrt (x : float) : option float :=
  if (x <? 0)%float then None else Some (PrimFloat.sqrt x).

(** Float division: raises [ZeroDivisionError] on a zero divisor. *)
Definition py_div (a b : float) : option float :=
  if (b =? 0)%float then None else Some (a / b)%float.

Definition SIN0 : Z := 0.
Definition AMP : Z := 248.
Definition math_pi : float := 0x1.921fb54442d18p+1%float.
Definition TARGET_MAGNITUDE_SQUARED : float :=
  float_of_int (AMP * AMP + SIN0 * SIN0).
Definition MIDPOINT_VALUE : float := 175.362481734263781%float.
Definition SIN_127_5 : float := 0.704934080375905%float.

Section WithLibm.
Variable L : libm.

(** The power-corrected sine of Phase 1, at position [k]. *)
Definition power_sine (k : Z) (fac tcorr : float) : option float :=
  let sin_val := m_sin L (math_pi * float_of_int k / 512)%float in
  p <- m_pow L sin_val fac ;;
  Some (float_of_int (AMP - SIN0) * p * tcorr + float_of_int SIN0)%float.

(** The theoretical constant-torque value at position [i]. *)
Definition theoretical_value (i : Z) (fac tcorr : float) : option float :=
  if i <? 128 then power_sine i fac tcorr
  else
    let mirror_i := 255 - i in
    mirror_theoretical <- power_sine mirror_i fac tcorr ;;
    py_sqrt (TARGET_MAGNITUDE_SQUARED - mirror_theoretical * mirror_theoretical)%float.

(** The integer part of the function: slope clamp, delta window, amplitude
    clamp, given the rounded candidate and the floor of the slope. *)
Definition clamp_min_delta (min_delta : Z) : Z :=
  if min_delta <? -1 then -1 else if min_delta >? 2 then 2 else min_delta.

Definition limit_delta (va min_delta candidate_value : Z) : Z :=
  let delta := candidate_value - va in
  if delta <? min_delta then va + min_delta
  else if delta >? min_delta + 1 then va + min_delta + 1
  else candidate_value.

Definition clamp_amplitude (candidate_value : Z) : Z :=
  if candidate_value <? SIN0 then SIN0
  else if candidate_value >? AMP then AMP
  else candidate_value.

(** [_tmc2130_calc_constant_torque_value]: the one-element lists [carry] and
    [prev_theoretical_value] that the source mutates are threaded through. *)
Definition tmc2130_calc_constant_torque_value
    (i va : Z) (fac tcorr carry prev_theoretical_value : float)
  : option (Z * float * float) :=
  theoretical_value' <- theoretical_value i fac tcorr ;;
  let adjusted_theoretical := (theoretical_value' - carry)%float in
  candidate_value <- py_int (adjusted_theoretical + 0.5)%float ;;
  let slope := (theoretical_value' - prev_theoretical_value)%float in
  min_delta <- py_floor slope ;;
  let min_delta := clamp_min_delta min_delta in
  let candidate_value := limit_delta va min_delta candidate_value in
  let candidate_value := clamp_amplitude candidate_value in
  Some (candidate_value,
        (float_of_int candidate_value - theoretical_value')%float,
        theoretical_value').

(** The [for i in range(256)] loop, [n] iterations from index [i]. *)
Fixpoint wave_loop (n : nat) (i va : Z) (fac tcorr carry prev : float)
  : option (list Z) :=
  match n with
  | O => Some []
  | S n' =>
      r <- tmc2130_calc_constant_torque_value i va fac tcorr carry prev ;;
      let '(vA, carry', prev') := r in
      rest <- wave_loop n' (i + 1) vA fac tcorr carry' prev' ;;
      Some (vA :: rest)
  end.

(** [_generate_constant_torque_wave], on [self.linearity_factor = fac1000]. *)
Definition generate_constant_torque_wave (fac1000 : Z) : option (list Z) :=
  let fac := if fac1000 =? 0 then 1%float
             else (float_of_int fac1000 / 1000)%float in
  p <- m_pow L SIN_127_5 fac ;;
  tcorr <- py_div (MIDPOINT_VALUE - float_of_int SIN0)
                  (float_of_int (AMP - SIN0) * p) ;;
  wave_loop 256 0 0 fac tcorr 0%float 0%float.

End WithLibm.

(** ** A reference C library

    Series implementations of [sin] and [pow] on binary64, accurate to a few
    units in the last place on the arguments the generator uses; they make the
    generator executable. *)

Fixpoint horner (cs : list float) (y : float) : float :=
  match cs with
  | [] => 0%float
  | c :: cs' => (c + y * horner cs' y)%float
  end.

(** sin x = x (1 - x^2/3! + x^4/5! - ...) *)
Definition ref_sin (x : float) : float :=
  let y := (x * x)%float in
  (x * horner [1; -1/6; 1/120; -1/5040; 1/362880; -1/39916800;
               1/6227020800; -1/1307674368000; 1/355687428096000;
               -1/121645100408832000] y)%float.

Definition ln2_hi : float := 0x1.62e42fee00000p-1%float.
Definition ln2_lo : float := 0x1.a39ef35793c76p-33%float.

(** ln x for a positive finite x, by x = m 2^e and the atanh series. *)
Definition ref_ln (x : float) : float :=
  let (m, e) := Z.frexp x in
  let '(m, e) := if (m <? 0x1.6a09e667f3bcdp-1)%float
                 then ((m * 2)%float, e - 1) else (m, e) in
  let z := ((m - 1) / (m + 1))%float in
  let y := (z * z)%float in
  let s := (2 * z * horner [1; 1/3; 1/5; 1/7; 1/9; 1/11; 1/13; 1/15; 1/17;
                            1/19; 1/21; 1/23; 1/25] y)%float in
  (float_of_int e * ln2_hi + (s + float_of_int e * ln2_lo))%float.

(** exp t for a finite t of moderate size. *)
Definition ref_exp (t : float) : float :=
  match py_floor (t / (ln2_hi + ln2_lo) + 0.5)%float with
  | None => nan
  | Some k =>
      let r := (t - float_of_int k * ln2_hi - float_of_int k * ln2_lo)%float in
      let p := horner [1; 1; 1/2; 1/6; 1/24; 1/120; 1/720; 1/5040; 1/40320;
                       1/362880; 1/3628800; 1/39916800; 1/479001600;
                       1/6227020800; 1/87178291200; 1/1307674368000]%float r in
      Z.ldexp p k
  end.

(** pow x y as Python gives it on floats with a positive exponent. *)
Definition ref_pow (x y : float) : option float :=
  if (x <? 0)%float then None
  else if (x =? 0)%float then
    (if (0 <? y)%float then Some 0%float else None)
  else Some (ref_exp (y * ref_ln x)%float).

Definition ref_libm : libm := {| m_sin := ref_sin; m_pow := ref_pow |}.

End Generator.


(** * MSLUT compression and register writes *)
Module Compressor.

#[local] Open Scope Z_scope.

(** The register fields [_write_wave_table] passes to [_set_tmc_field];
    [mslut k] is the field named ['mslut{k}']. *)
Inductive field : Type :=
  | start_sin | start_sin90
  | mslut (k : Z)
  | w0 | w1 | w2 | w3
  | x1 | x2 | x3.

(** One call of [_set_tmc_field]: the field and the value handed to it. *)
Definition write : Type := (field * Z)%type.

(** How a call ends: a normal return, an exception, or (for the bounded model
    of [while True]) an exhausted iteration budget. *)
Inductive outcome : Type :=
  | Returned
  | Raised (e : exn)
  | OutOfFuel.

(** [l[n] = v] on a list, for an index in range; the source guards every
    such store with a bounds check. *)
Fixpoint list_set (l : list Z) (n : nat) (v : Z) : list Z :=
  match l, n with
  | [], _ => []
  | _ :: t, O => v :: t
  | h :: t, S n' => h :: list_set t n' v
  end.

(** The delta-family state: the two representable deltas, the W bits, the
    X segment bounds and the current segment. *)
Record family : Type := {
  d0 : Z;
  d1 : Z;
  w : list Z;
  x : list Z;
  s : Z
}.

(** [d0, d1 = a, b] followed by the guarded [w[s+1] = v]. *)
Definition switch_family (g : family) (a b v : Z) : family :=
  {| d0 := a; d1 := b;
     w := if s g + 1 <? 4 then list_set (w g) (Z.to_nat (s g + 1)) v else w g;
     x := x g; s := s g |}.

(** [if b >= 0 and s < 3: x[s] = i; s += 1]. *)
Definition record_boundary (g : family) (b i : Z) : family :=
  if (0 <=? b) && (s g <? 3) then
    {| d0 := d0 g; d1 := d1 g; w := w g;
       x := list_set (x g) (Z.to_nat (s g)) i; s := s g + 1 |}
  else g.

(** The delta encoding of one entry: the encoded bit [b] (-1 when the delta
    is out of range) and the family state after it. *)
Definition encode_delta (g : family) (i dA : Z) : Z * family :=
  if dA =? d0 g then (0, g)
  else if dA =? d1 g then (1, g)
  else if dA <? d0 g then
    let '(b, g') :=
      if dA =? -1 then (0, switch_family g (-1) 0 0)
      else if dA =? 0 then (0, switch_family g 0 1 1)
      else if dA =? 1 then (0, switch_family g 1 2 2)
      else (-1, g) in
    (b, record_boundary g' b i)
  else if dA >? d1 g then
    let '(b, g') :=
      if dA =? 1 then (1, switch_family g 0 1 1)
      else if dA =? 2 then (1, switch_family g 1 2 2)
      else if dA =? 3 then (1, switch_family g 2 3 3)
      else (-1, g) in
    (b, record_boundary g' b i)
  else (-1, g).

(** The variables of the compression loop that live across iterations, and
    the register writes issued so far. *)
Record enc : Type := {
  fam : family;
  va : Z;
  i : Z;
  reg : Z;
  trace : list write
}.

Definition init : enc :=
  {| fam := {| d0 := 0; d1 := 1; w := [1; 1; 1; 1]; x := [255; 255; 255];
               s := 0 |};
     va := 0; i := 0; reg := 0; trace := [] |}.

(** The result of one pass through the loop body. *)
Inductive step_result : Type :=
  | Next (e : enc)        (* falls through to [i += 1] *)
  | Failed (e : enc)      (* [break] on [b < 0] or [s > 3] *)
  | Finished (e : enc)    (* [break] on [i == 255] *)
  | Fault (e : enc).      (* [wave_table[i]] out of range *)

(** The encoded bit of the entry at the state's index, before the failure
    checks. *)
Definition step_bit (wave_table : list Z) (e : enc) : option Z :=
  match nth_error wave_table (Z.to_nat (i e)) with
  | None => None
  | Some vA => Some (fst (encode_delta (fam e) (i e) (vA - va e)))
  end.

Definition step (wave_table : list Z) (e : enc) : step_result :=
  let reg0 := if Z.land (i e) 0x1f =? 0 then 0 else reg e in
  match nth_error wave_table (Z.to_nat (i e)) with
  | None => Fault e
  | Some vA =>
      let dA := vA - va e in
      let '(b, g) := encode_delta (fam e) (i e) dA in
      let e1 := {| fam := g; va := vA; i := i e; reg := reg0;
                   trace := trace e |} in
      if b <? 0 then Failed e1
      else if s g >? 3 then Failed e1
      else
        let reg1 := if b =? 1 then Z.lor reg0 0x80000000 else reg0 in
        let e2 :=
          if Z.land (i e) 31 =? 31 then
            {| fam := g; va := vA; i := i e; reg := reg1;
               trace := trace e ++ [(mslut (Z.shiftr (i e) 5), reg1)] |}
          else
            {| fam := g; va := vA; i := i e; reg := Z.shiftr reg1 1;
               trace := trace e |} in
        if i e =? 255 then Finished e2
        else Next {| fam := fam e2; va := va e2; i := i e2 + 1;
                     reg := reg e2; trace := trace e2 |}
  end.

(** The [while True] loop, bounded by [fuel] passes. *)
Inductive loop_result : Type :=
  | Stopped (r : step_result)
  | Unfinished (e : enc).

Fixpoint encode_loop (fuel : nat) (wave_table : list Z) (e : enc)
  : loop_result :=
  match fuel with
  | O => Unfinished e
  | S fuel' =>
      match step wave_table e with
      | Next e' => encode_loop fuel' wave_table e'
      | r => Stopped r
      end
  end.

(** The MSLUTSEL writes that follow the loop. *)
Definition mslutsel_writes (g : family) : list write :=
  [(w0, nth 0 (w g) 0); (w1, nth 1 (w g) 0); (w2, nth 2 (w g) 0);
   (w3, nth 3 (w g) 0);
   (x1, nth 0 (x g) 0); (x2, nth 1 (x g) 0); (x3, nth 2 (x g) 0)].

(** The indices read for the log line before the first register write. *)
Definition sample_indices : list Z :=
  [0; 32; 64; 96; 127; 128; 160; 192; 224; 255].

(** [_write_wave_table]: the register writes issued, in order, and how the
    call ends.  [has_tmc] says whether [self.tmc_object] is set. *)
Definition write_wave_table (has_tmc : bool) (wave_table : list Z)
  : list write * outcome :=
  if negb has_tmc then ([], Raised RuntimeError)
  else if existsb (fun k => Z.of_nat (length wave_table) <=? k) sample_indices
  then ([], Raised IndexError)
  else
    let start := [(start_sin, Z.land Generator.SIN0 0xFF);
                  (start_sin90, Z.land Generator.AMP 0xFF)] in
    match encode_loop 256 wave_table init with
    | Stopped (Failed e) | Stopped (Finished e) =>
        (start ++ trace e ++ mslutsel_writes (fam e), Returned)
    | Stopped (Fault e) => (start ++ trace e, Raised IndexError)
    | Stopped (Next e) | Unfinished e => (start ++ trace e, OutOfFuel)
    end.

(** The table entry at index [k] and the single-step delta into it, with the
    entry before index 0 taken as 0. *)
Definition entry (wave_table : list Z) (k : Z) : Z :=
  nth (Z.to_nat k) wave_table 0.

Definition delta (wave_table : list Z) (k : Z) : Z :=
  entry wave_table k - (if k =? 0 then 0 else entry wave_table (k - 1)).

(** The state at the head of pass [n], when the loop gets that far. *)
Fixpoint state_at (wave_table : list Z) (n : nat) : option enc :=
  match n with
  | O => Some init
  | S n' =>
      match state_at wave_table n' with
      | Some e =>
          match step wave_table e with
          | Next e' => Some e'
          | _ => None
          end
      | None => None
      end
  end.

(** The delta-class bit the loop emits for index [n]. *)
Definition emitted_bit (wave_table : list Z) (n : nat) : option Z :=
  match state_at wave_table n with
  | Some e =>
      match step wave_table e with
      | Next _ | Finished _ => step_bit wave_table e
      | _ => None
      end
  | None => None
  end.

End Compressor.

(** * Step planning *)
Module Planner.

#[local] Open Scope Z_scope.

(** What [_goto_step] asks of the pulse driver: nothing, or [steps] pulses in
    direction [dir]. *)
Inductive plan : Type :=
  | NoMove
  | Move (dir steps : Z).

Inductive result : Type :=
  | Done (p : plan)
  | Raised (e : exn).

(** [for shift in range(8): if microstep_resolution == (256 >> shift): break]
    leaves [shift] at the first match, or at the last value tried. *)
Fixpoint for_shift (range : list Z) (shift microstep_resolution : Z) : Z :=
  match range with
  | [] => shift
  | k :: rest =>
      if microstep_resolution =? Z.shiftr 256 k then k
      else for_shift rest k microstep_resolution
  end.

Definition find_shift (microstep_resolution : Z) : Z :=
  for_shift [0; 1; 2; 3; 4; 5; 6; 7] 0 microstep_resolution.

(** The auto-direction computation on the masked counter. *)
Definition plan_steps (shift mscnt : Z) (axis_inverted : bool)
    (target_step : Z) : Z * Z :=
  let cnt := 4 * Z.shiftl 1 (8 - shift) in
  let dir := if axis_inverted then 0 else 1 in
  let steps := target_step - Z.shiftr mscnt shift in
  let '(dir, steps) :=
    if steps >? cnt / 2 then (Z.lxor dir 1, cnt - steps) else (dir, steps) in
  let '(dir, steps) :=
    if steps <? 0 then (Z.lxor dir 1, - steps) else (dir, steps) in
  (dir, steps).

(** [_goto_step]: [has_tmc] says whether [self.tmc_object] is set and
    [mscnt_reg] is what reading the MSCNT register returned. *)
Definition goto_step (has_tmc : bool) (mscnt_reg : option Z)
    (axis_inverted : bool) (target_step microstep_resolution : Z) : result :=
  if negb has_tmc then Raised RuntimeError
  else
    match mscnt_reg with
    | None => Raised RuntimeError
    | Some r =>
        let mscnt := Z.land r 0x3ff in
        let shift := find_shift microstep_resolution in
        let '(dir, cnt) := plan_steps shift mscnt axis_inverted target_step in
        if cnt =? 0 then Done NoMove else Done (Move dir cnt)
    end.

(** The number of step pulses a result stands for. *)
Definition pulses (r : result) : Z :=
  match r with
  | Done (Move _ n) => n
  | _ => 0
  end.

(** The length of the shorter way round a cycle of [cycle] microsteps from
    [pos] to [target]. *)
Definition shortest_distance (cycle pos target : Z) : Z :=
  let d := (target - pos) mod cycle in
  Z.min d (cycle - d).

End Planner.

(** * Specification vocabulary *)

(** ** Generated tables *)
Module GeneratorSpec.

Import Generator.
#[local] Open Scope Z_scope.

(** The reference table for factor 1.0, and the sum of the squares of entry [k]
    and its mirror entry. *)
Definition ref_wave_1000 : list Z :=
  Eval vm_compute in
    match generate_constant_torque_wave ref_libm 1000 with
    | Some t => t
    | None => []
    end.

Definition mirror_sum (wave_table : list Z) (k : Z) : Z :=
  Compressor.entry wave_table k * Compressor.entry wave_table k
  + Compressor.entry wave_table (255 - k) * Compressor.entry wave_table (255 - k).

(** Every entry of [l] is in the amplitude range and within the delta window
    of the entry before it, [prev] standing before the first. *)
Fixpoint steps_ok (prev : Z) (l : list Z) : Prop :=
  match l with
  | [] => True
  | v :: rest => (-1 <= v - prev <= 3) /\ (0 <= v <= 248) /\ steps_ok v rest
  end.

Definition magnitude_within_2 (wave_table : list Z) : bool :=
  forallb (fun k => let i := 128 + Z.of_nat k in
                    (246 * 246 <=? mirror_sum wave_table i)
                    && (mirror_sum wave_table i <=? 250 * 250))
          (seq 0 128).

Definition ref_magnitude_ok (fac1000 : Z) : bool :=
  match generate_constant_torque_wave ref_libm fac1000 with
  | Some t => magnitude_within_2 t
  | None => false
  end.

Definition factor_domain : list Z :=
  map (fun k => 1000 + Z.of_nat k) (seq 0 201).

End GeneratorSpec.

(** ** Compression *)
Module CompressorSpec.

Import Compressor.
#[local] Open Scope Z_scope.

(** A table of 256 zeros but for a jump of +10 at index 40. *)
Definition jump_table : list Z := repeat 0 40 ++ repeat 10 216.

(** A table whose deltas 2, 0, 2, 0, 0, ... ask for four family switches, at
    indices 0, 1, 2 and 3. *)
Definition four_switch_table : list Z := [2; 2; 4] ++ repeat 4 253.

(** The delta of the entry at index [k] is one the encoder can represent. *)
Definition delta_ok (wave_table : list Z) (k : Z) : Prop :=
  -1 <= delta wave_table k <= 3.

(** The emitted bit of index [m] as a boolean. *)
Definition bitB (wave_table : list Z) (m : Z) : bool :=
  match emitted_bit wave_table (Z.to_nat m) with
  | Some b => b =? 1
  | None => false
  end.

(** [word] holds, at bit [p] for [p] in 0..31, the emitted bit of index
    [32 k + p], and has no other bit set. *)
Definition word_ok (wave_table : list Z) (k word : Z) : Prop :=
  0 <= word /\
  forall p, 0 <= p ->
            Z.testbit word p = (p <? 32) && bitB wave_table (32 * k + p).

(** The family state the encoder maintains: adjacent deltas inside the
    hardware window, a segment index in 0..3, four W bits, three X bounds. *)
Definition family_ok (g : family) : Prop :=
  d1 g = d0 g + 1 /\ -1 <= d0 g <= 2 /\ 0 <= s g <= 3 /\
  length (w g) = 4%nat /\ length (x g) = 3%nat.

(** The writes issued by the loop before pass [n]: one per completed block
    of 32 entries, in block order. *)
Definition trace_ok (wave_table : list Z) (n : Z) (tr : list write) : Prop :=
  Z.of_nat (length tr) = n / 32 /\
  forall k, 0 <= k < n / 32 ->
            exists word, nth_error tr (Z.to_nat k) = Some (mslut k, word)
                         /\ word_ok wave_table k word.

(** The accumulator at the head of pass [n], after the reset at a block
    start: the bits emitted so far in the block sit just below bit 31. *)
Definition reg_ok (wave_table : list Z) (n : Z) (r : Z) : Prop :=
  let j := n mod 32 in
  let r0 := if j =? 0 then 0 else r in
  0 <= r0 /\
  forall p, 0 <= p ->
            Z.testbit r0 p
            = (31 - j <=? p) && (p <=? 30)
              && bitB wave_table (32 * (n / 32) + (p - (31 - j))).

(** Where the loop stands when it stops on [jump_table]. *)
Definition jump_stop : enc :=
  {| fam := {| d0 := 0; d1 := 1; w := [1; 1; 1; 1]; x := [255; 255; 255];
               s := 0 |};
     va := 10; i := 40; reg := 0; trace := [(mslut 0, 0)] |}.

(** Where the loop ends on the reference table for factor 1.0. *)
Definition ref_final_1000 : enc :=
  Eval vm_compute in
    match encode_loop 256 GeneratorSpec.ref_wave_1000 init with
    | Stopped (Finished e) => e
    | _ => init
    end.

End CompressorSpec.

(** * Commands, resolution and pulses *)
Module Command.

Import Generator Compressor Planner.
#[local] Open Scope Z_scope.

(** How a call ends for a caller that catches every exception alike. *)
Inductive status : Type :=
  | Completed
  | Aborted.

(** [_apply_linearity_correction] on [self.linearity_factor]: the register
    writes issued and how the call ends. *)
Definition apply_linearity_correction (L : libm) (has_tmc : bool)
    (linearity_factor : Z) : list write * status :=
  if negb has_tmc then ([], Aborted)
  else
    match generate_constant_torque_wave L linearity_factor with
    | None => ([], Aborted)
    | Some wave_table =>
        let '(writes, o) := write_wave_table has_tmc wave_table in
        (writes, match o with Returned => Completed | _ => Aborted end)
    end.

(** [_cmd_set_wave_with_offset]: the factor stored in [self.linearity_factor],
    the register writes, and whether the success message is sent. *)
Definition cmd_set_wave_with_offset (L : libm) (has_tmc : bool)
    (factor_offset : Z) : Z * list write * status :=
  let linearity_factor := 1000 + factor_offset in
  let '(writes, st) := apply_linearity_correction L has_tmc linearity_factor in
  (linearity_factor, writes, st).

(** The offsets of the registered TMC_SET_WAVE commands: [range(0, 201, 10)]. *)
Definition wave_offsets : list Z :=
  map (fun k => 10 * Z.of_nat k) (seq 0 21).

(** [_get_microstep_resolution], on what reading the MRES field returned; a
    negative shift count raises and is caught, like a failed read. *)
Definition get_microstep_resolution (mres : option Z) : Z :=
  match mres with
  | None => 256
  | Some m => if m <? 0 then 256 else Z.shiftr 256 m
  end.

(** [_cmd_set_step_with_position]: the masked step and the outcome of
    [_goto_step] on it. *)
Definition cmd_set_step_with_position (has_tmc : bool) (mres mscnt_reg : option Z)
    (axis_inverted : bool) (target_step : Z) : Z * result :=
  let microstep_resolution := get_microstep_resolution mres in
  let max_step := 4 * microstep_resolution - 1 in
  let masked_step := Z.land target_step max_step in
  (masked_step,
   goto_step has_tmc mscnt_reg axis_inverted masked_step microstep_resolution).

(** A call of [set_digital] on one of the two pins. *)
Inductive pin : Type :=
  | StepPin
  | DirPin.

Record pin_event : Type := {
  ev_pin : pin;
  ev_time : float;
  ev_level : Z
}.

(** [_set_dir_pin_direct]. *)
Definition set_dir_pin_direct (has_dir_pin axis_inverted : bool)
    (direction : Z) (print_time : float) : list pin_event :=
  if negb has_dir_pin then []
  else
    let actual_direction :=
      if negb axis_inverted then direction else 1 - direction in
    [{| ev_pin := DirPin; ev_time := print_time;
        ev_level := actual_direction |}].

(** [_execute_step_pulse_direct]. *)
Definition execute_step_pulse_direct (has_step_pin step_inverted : bool)
    (print_time : float) : list pin_event :=
  if negb has_step_pin then []
  else
    let active_level := if step_inverted then 0 else 1 in
    let inactive_level := if step_inverted then 1 else 0 in
    let pulse_width := 0.000001%float in
    [{| ev_pin := StepPin; ev_time := print_time; ev_level := active_level |};
     {| ev_pin := StepPin; ev_time := (print_time + pulse_width)%float;
        ev_level := inactive_level |}].

(** The [for step in range(steps)] loop of [_perform_force_move_steps]. *)
Fixpoint step_loop (n : nat) (has_step_pin step_inverted : bool)
    (print_time step_interval : float) : list pin_event :=
  match n with
  | O => []
  | S n' =>
      execute_step_pulse_direct has_step_pin step_inverted print_time
      ++ step_loop n' has_step_pin step_inverted
                   (print_time + step_interval)%float step_interval
  end.

(** [_perform_force_move_steps]: the pin events scheduled, in call order,
    from the toolhead's last move time [print_time]. *)
Definition perform_force_move_steps (has_step_pin has_dir_pin : bool)
    (axis_inverted step_inverted : bool) (steps direction : Z)
    (print_time : float) : list pin_event :=
  if negb has_step_pin || negb has_dir_pin then []
  else
    let dir_events :=
      set_dir_pin_direct has_dir_pin axis_inverted direction print_time in
    let print_time := (print_time + 0.000001)%float in
    let step_delay := 1000 in
    let step_interval := (float_of_int step_delay / 1000000)%float in
    dir_events
    ++ step_loop (Z.to_nat steps) has_step_pin step_inverted
                 print_time step_interval.

(** The pin events of a whole [_goto_step] call. *)
Definition goto_step_events (has_tmc : bool) (mscnt_reg : option Z)
    (has_step_pin has_dir_pin axis_inverted step_inverted : bool)
    (target_step microstep_resolution : Z) (print_time : float)
  : list pin_event :=
  match goto_step has_tmc mscnt_reg axis_inverted target_step
                  microstep_resolution with
  | Done (Move dir cnt) =>
      perform_force_move_steps has_step_pin has_dir_pin axis_inverted
                               step_inverted cnt dir print_time
  | Done NoMove | Planner.Raised _ => []
  end.

End Command.

(** ** Vocabulary for the properties of the commands and registers *)
Module CommandSpec.

Import Compressor Planner Command.
#[local] Open Scope Z_scope.

(** The value of a write fits the register field it goes to. *)
Definition fits (wr : write) : Prop :=
  match wr with
  | (start_sin, v) => v = 0
  | (start_sin90, v) => v = 248
  | (mslut k, v) => 0 <= k <= 7 /\ 0 <= v < 2 ^ 32
  | (w0, v) | (w1, v) | (w2, v) | (w3, v) => 0 <= v <= 3
  | (x1, v) | (x2, v) | (x3, v) => 0 <= v <= 255
  end.

(** The fields of a complete register image, in the order of the writes. *)
Definition image_fields : list field :=
  [start_sin; start_sin90;
   mslut 0; mslut 1; mslut 2; mslut 3; mslut 4; mslut 5; mslut 6; mslut 7;
   w0; w1; w2; w3; x1; x2; x3].

(** The segment bounds recorded before pass [n]: the first [s] are earlier
    indices in increasing order, the others still hold 255. *)
Definition boundaries_ok (n : Z) (g : family) : Prop :=
  (forall k, (k < Z.to_nat (s g))%nat -> 0 <= nth k (x g) 0 < n)
  /\ (forall k, (Z.to_nat (s g) <= k < 3)%nat -> nth k (x g) 0 = 255)
  /\ (forall k, (S k < Z.to_nat (s g))%nat ->
                nth k (x g) 0 < nth (S k) (x g) 0).

(** The W bits are 2-bit codes, and while a segment is left the code of the
    current one names the active pair of deltas. *)
Definition codes_ok (g : family) : Prop :=
  Forall (fun v => 0 <= v <= 3) (w g)
  /\ (s g < 3 -> nth (Z.to_nat (s g)) (w g) 0 = d0 g + 1).

(** The signed displacement a plan stands for, counted in the direction of
    an uninverted, unflipped move. *)
Definition displacement (axis_inverted : bool) (p : Z * Z) : Z :=
  let base := if axis_inverted then 0 else 1 in
  if fst p =? base then snd p else - snd p.

(** What one registered wave command must give under the reference library:
    a table encoded to the end with two recorded family switches. *)
Definition wave_command_ok (factor_offset : Z) : bool :=
  match Generator.generate_constant_torque_wave Generator.ref_libm
          (1000 + factor_offset) with
  | Some tbl =>
      match encode_loop 256 tbl init with
      | Stopped (Finished e) =>
          (s (fam e) =? 2)
          && forallb (fun k => nth k tbl 0 <=? nth (S k) tbl 0) (seq 0 255)
          && (nth 0 tbl 0 =? 0) && (nth 255 tbl 0 =? 248)
      | _ => false
      end
  | None => false
  end.

(** The state at the head of pass [n] on the reference table for factor
    1.0. *)
Definition ref_state (n : nat) : enc :=
  match state_at GeneratorSpec.ref_wave_1000 n with
  | Some e => e
  | None => init
  end.

End CommandSpec.

(** * Properties of the generated wave table *)
Module GeneratorProps.

Import Generator GeneratorSpec.
#[local] Open Scope Z_scope.

Lemma clamp_min_delta_range min_delta :
  -1 <= clamp_min_delta min_delta <= 2.
Proof.
  unfold clamp_min_delta. rewrite Z.gtb_ltb.
  destruct (Z.ltb_spec min_delta (-1)); [lia|].
  destruct (Z.ltb_spec 2 min_delta); lia.
Qed.

Lemma limit_delta_range va min_delta candidate :
  min_delta <= limit_delta va min_delta candidate - va <= min_delta + 1.
Proof.
  unfold limit_delta. cbv zeta. rewrite Z.gtb_ltb.
  destruct (Z.ltb_spec (candidate - va) min_delta); [lia|].
  destruct (Z.ltb_spec (min_delta + 1) (candidate - va)); lia.
Qed.

Lemma clamp_amplitude_spec c :
  clamp_amplitude c = Z.max 0 (Z.min 248 c).
Proof.
  unfold clamp_amplitude, SIN0, AMP. rewrite Z.gtb_ltb.
  destruct (Z.ltb_spec c 0); [lia|].
  destruct (Z.ltb_spec 248 c); lia.
Qed.

Lemma quantize_window va min_delta candidate :
  0 <= va <= 248 ->
  let v := clamp_amplitude
             (limit_delta va (clamp_min_delta min_delta) candidate) in
  0 <= v <= 248 /\ -1 <= v - va <= 3.
Proof.
  intros Hva v. subst v. rewrite clamp_amplitude_spec.
  pose proof (clamp_min_delta_range min_delta).
  pose proof (limit_delta_range va (clamp_min_delta min_delta) candidate).
  lia.
Qed.

Lemma calc_value_window L i va fac tcorr carry prev v carry' prev' :
  0 <= va <= 248 ->
  tmc2130_calc_constant_torque_value L i va fac tcorr carry prev
    = Some (v, carry', prev') ->
  0 <= v <= 248 /\ -1 <= v - va <= 3.
Proof.
  intros Hva. unfold tmc2130_calc_constant_torque_value.
  destruct (theoretical_value L i fac tcorr) as [th|]; [|discriminate].
  destruct (py_int _) as [cand|]; [|discriminate].
  destruct (py_floor _) as [md|]; [|discriminate].
  intros H. injection H as Hv _ _. subst v.
  apply quantize_window. exact Hva.
Qed.

Lemma wave_loop_ok L fac tcorr :
  forall n i va carry prev l,
    0 <= va <= 248 ->
    wave_loop L n i va fac tcorr carry prev = Some l ->
    length l = n /\ steps_ok va l.
Proof.
  induction n as [|n IH]; intros i va carry prev l Hva; simpl.
  - intros H. injection H as <-. split; [reflexivity | exact I].
  - destruct (tmc2130_calc_constant_torque_value L i va fac tcorr carry prev)
      as [[[v c'] p']|] eqn:Hcalc; [|discriminate].
    destruct (wave_loop L n (i + 1) v fac tcorr c' p') as [rest|] eqn:Hrest;
      [|discriminate].
    intros H. injection H as <-.
    destruct (calc_value_window _ _ _ _ _ _ _ _ _ _ Hva Hcalc) as [Hv Hd].
    destruct (IH _ _ _ _ _ Hv Hrest) as [Hlen Hok].
    simpl. split; [congruence | auto].
Qed.

Lemma generate_steps_ok L fac1000 tbl :
  generate_constant_torque_wave L fac1000 = Some tbl ->
  length tbl = 256%nat /\ steps_ok 0 tbl.
Proof.
  unfold generate_constant_torque_wave.
  destruct (m_pow L SIN_127_5 _) as [p|]; [|discriminate].
  destruct (py_div _ _) as [tcorr|]; [|discriminate].
  apply wave_loop_ok. lia.
Qed.

Lemma steps_ok_range prev l : steps_ok prev l -> Forall (fun v => 0 <= v <= 248) l.
Proof.
  revert prev. induction l as [|v l IH]; intros prev; simpl.
  - constructor.
  - intros (_ & Hv & Hrest). constructor; eauto.
Qed.

Lemma steps_ok_nth :
  forall l prev k, steps_ok prev l -> (k < length l)%nat ->
    -1 <= nth k l 0 - match k with O => prev | S k' => nth k' l 0 end <= 3
    /\ 0 <= nth k l 0 <= 248.
Proof.
  induction l as [|v l IH]; intros prev k Hok Hk; simpl in Hk; [lia|].
  destruct Hok as (Hd & Hv & Hrest).
  destruct k as [|k]; simpl; [lia|].
  specialize (IH v k Hrest ltac:(lia)).
  destruct k; simpl in *; lia.
Qed.

Lemma steps_ok_delta tbl k :
  steps_ok 0 tbl -> 0 <= k < Z.of_nat (length tbl) ->
  -1 <= Compressor.delta tbl k <= 3 /\ 0 <= Compressor.entry tbl k <= 248.
Proof.
  intros Hok Hk.
  destruct (steps_ok_nth tbl 0 (Z.to_nat k) Hok ltac:(lia)) as [Hd Hv].
  unfold Compressor.delta, Compressor.entry.
  destruct (Z.eqb_spec k 0) as [->|Hne].
  - simpl in *. lia.
  - replace (Z.to_nat k) with (S (Z.to_nat (k - 1))) in * by lia. lia.
Qed.

Lemma in_factor_domain fac1000 :
  1000 <= fac1000 <= 1200 -> In fac1000 factor_domain.
Proof.
  intros H. unfold factor_domain. apply in_map_iff.
  exists (Z.to_nat (fac1000 - 1000)). split; [lia|].
  apply in_seq. lia.
Qed.

Lemma ref_magnitude_all : forallb ref_magnitude_ok factor_domain = true.
Proof. vm_compute. reflexivity. Qed.

(** No table with the delta window of the generator can have the squares of
    entries 128 and 127 sum to within 2 of 248 squared. *)
Lemma mirror_sum_128_off L fac1000 tbl :
  generate_constant_torque_wave L fac1000 = Some tbl ->
  ~ Z.abs (mirror_sum tbl 128 - 248 * 248) <= 2.
Proof.
  intros Hgen. destruct (generate_steps_ok _ _ _ Hgen) as [Hlen Hok].
  destruct (steps_ok_delta tbl 128 Hok ltac:(lia)) as [Hd Ha].
  destruct (steps_ok_delta tbl 127 Hok ltac:(lia)) as [_ Hb].
  unfold mirror_sum. unfold Compressor.delta in Hd.
  change (128 =? 0) with false in Hd. change (128 - 1) with 127 in Hd.
  change (255 - 128) with 127.
  set (a := Compressor.entry tbl 128) in *.
  set (b := Compressor.entry tbl 127) in *.
  intros Habs.
  assert (Hcases : a = b - 1 \/ a = b \/ a = b + 1 \/ a = b + 2 \/ a = b + 3)
    by lia.
  destruct Hcases as [->|[->|[->|[->| ->]]]].
  - destruct (Z_le_gt_dec b 175); nia.
  - destruct (Z_le_gt_dec b 175); nia.
  - destruct (Z_le_gt_dec b 174); nia.
  - destruct (Z_le_gt_dec b 174); nia.
  - destruct (Z_le_gt_dec b 173); nia.
Qed.

(** C7: for every factor in the domain 1000..1200 (1.0 to 1.2) the generator
    returns a table under the reference C library, and under any C library
    whatever table it returns has exactly 256 entries, each in [0, 248]. *)
Theorem generate_wave_table_shape (fac1000 : Z) :
  1000 <= fac1000 <= 1200 ->
  (exists tbl, generate_constant_torque_wave ref_libm fac1000 = Some tbl) /\
  (forall L tbl,
      generate_constant_torque_wave L fac1000 = Some tbl ->
      length tbl = 256%nat /\ Forall (fun v => 0 <= v <= 248) tbl).
Proof.
  intros Hdom. split.
  - pose proof ref_magnitude_all as Hall.
    rewrite forallb_forall in Hall.
    specialize (Hall fac1000 (in_factor_domain _ Hdom)).
    unfold ref_magnitude_ok in Hall.
    destruct (generate_constant_torque_wave ref_libm fac1000) as [t|];
      [eauto | discriminate].
  - intros L tbl Hgen.
    destruct (generate_steps_ok _ _ _ Hgen) as [Hlen Hok].
    split; [exact Hlen | eapply steps_ok_range; exact Hok].
Qed.

Lemma generate_wave_table_shape_witness :
  1000 <= 1100 <= 1200 /\
  ((exists tbl, generate_constant_torque_wave ref_libm 1100 = Some tbl) /\
   (forall L tbl,
       generate_constant_torque_wave L 1100 = Some tbl ->
       length tbl = 256%nat /\ Forall (fun v => 0 <= v <= 248) tbl)).
Proof.
  split; [lia | apply (generate_wave_table_shape 1100); lia].
Defined.

(** C10: whatever the floating-point values, every single-step delta of a
    generated table (the entry before index 0 taken as 0) lies in [-1, 3]. *)
Theorem generate_delta_window (L : libm) (fac1000 : Z) (tbl : list Z) :
  generate_constant_torque_wave L fac1000 = Some tbl ->
  forall i, 0 <= i <= 255 -> -1 <= Compressor.delta tbl i <= 3.
Proof.
  intros Hgen i Hi.
  destruct (generate_steps_ok _ _ _ Hgen) as [Hlen Hok].
  apply steps_ok_delta; [exact Hok | lia].
Qed.

Lemma generate_delta_window_witness :
  generate_constant_torque_wave ref_libm 1000 = Some ref_wave_1000 /\
  (forall i, 0 <= i <= 255 -> -1 <= Compressor.delta ref_wave_1000 i <= 3).
Proof.
  assert (H : generate_constant_torque_wave ref_libm 1000 = Some ref_wave_1000)
    by (vm_compute; reflexivity).
  split; [exact H | exact (generate_delta_window ref_libm 1000 ref_wave_1000 H)].
Defined.

(** C9, as stated, fails: the squares of an entry and its mirror entry do not
    sum to within 2 of 248 squared for every index from 128 on. *)
Lemma mirror_squares_not_within_2 :
  ~ (forall L fac1000 tbl,
        1000 <= fac1000 <= 1200 ->
        generate_constant_torque_wave L fac1000 = Some tbl ->
        forall i, 128 <= i <= 255 ->
                  Z.abs (mirror_sum tbl i - 248 * 248) <= 2).
Proof.
  intros H.
  assert (Hgen : generate_constant_torque_wave ref_libm 1000 = Some ref_wave_1000)
    by (vm_compute; reflexivity).
  specialize (H ref_libm 1000 ref_wave_1000 ltac:(lia) Hgen 128 ltac:(lia)).
  vm_compute in H. apply H. reflexivity.
Qed.

(** C9, amended: under the reference C library, for every factor in the
    domain and every index from 128 on, the magnitude of the vector made of
    the entry and its mirror entry is within 2 of 248, that is, the sum of
    the squares lies between 246 squared and 250 squared. *)
Theorem mirror_magnitude_within_2 (fac1000 : Z) :
  1000 <= fac1000 <= 1200 ->
  exists tbl,
    generate_constant_torque_wave ref_libm fac1000 = Some tbl /\
    forall i, 128 <= i <= 255 ->
              246 * 246 <= mirror_sum tbl i <= 250 * 250.
Proof.
  intros Hdom.
  pose proof ref_magnitude_all as Hall.
  rewrite forallb_forall in Hall.
  specialize (Hall fac1000 (in_factor_domain _ Hdom)).
  unfold ref_magnitude_ok in Hall.
  destruct (generate_constant_torque_wave ref_libm fac1000) as [t|];
    [|discriminate].
  exists t. split; [reflexivity|].
  intros i Hi. unfold magnitude_within_2 in Hall.
  rewrite forallb_forall in Hall.
  specialize (Hall (Z.to_nat (i - 128))).
  cbv zeta in Hall.
  replace (128 + Z.of_nat (Z.to_nat (i - 128))) with i in Hall by lia.
  assert (Hin : In (Z.to_nat (i - 128)) (seq 0 128)) by (apply in_seq; lia).
  apply Hall in Hin. apply andb_true_iff in Hin. lia.
Qed.

Lemma mirror_magnitude_within_2_witness :
  1000 <= 1200 <= 1200 /\
  exists tbl,
    generate_constant_torque_wave ref_libm 1200 = Some tbl /\
    forall i, 128 <= i <= 255 ->
              246 * 246 <= mirror_sum tbl i <= 250 * 250.
Proof.
  split; [lia | apply (mirror_magnitude_within_2 1200); lia].
Defined.

End GeneratorProps.

(** * Properties of the compression loop *)
Module CompressorProps.

Import Compressor CompressorSpec.
#[local] Open Scope Z_scope.

Lemma list_set_length l n v : length (list_set l n v) = length l.
Proof.
  revert n. induction l as [|h t IH]; intros [|n]; simpl; auto.
Qed.

Lemma switch_family_ok g a b v :
  family_ok g -> b = a + 1 -> -1 <= a <= 2 -> family_ok (switch_family g a b v).
Proof.
  intros (H1 & H2 & H3 & H4 & H5) Hb Ha. unfold family_ok, switch_family; simpl.
  repeat split; try lia.
  destruct (s g + 1 <? 4); [rewrite list_set_length|]; exact H4.
Qed.

Lemma record_boundary_ok g b k :
  family_ok g -> family_ok (record_boundary g b k).
Proof.
  intros (H1 & H2 & H3 & H4 & H5). unfold family_ok, record_boundary.
  destruct (0 <=? b); simpl; [|repeat split; auto; lia].
  destruct (Z.ltb_spec (s g) 3); simpl; repeat split; auto; try lia.
  rewrite list_set_length. exact H5.
Qed.

(** On a well-formed family state the encoder emits 0 or 1 exactly for the
    deltas of the window [-1, 3], and keeps the state well formed. *)
Lemma encode_delta_spec g k dA :
  family_ok g ->
  let '(b, g') := encode_delta g k dA in
  family_ok g' /\
  ((-1 <= dA <= 3 /\ (b = 0 \/ b = 1)) \/ ((dA < -1 \/ 3 < dA) /\ b = -1)).
Proof.
  intros Hg. pose proof Hg as (H1 & H2 & H3 & H4 & H5).
  unfold encode_delta.
  destruct (Z.eqb_spec dA (d0 g)); [split; [exact Hg | left; lia]|].
  destruct (Z.eqb_spec dA (d1 g)); [split; [exact Hg | left; lia]|].
  destruct (Z.ltb_spec dA (d0 g)).
  - destruct (Z.eqb_spec dA (-1));
      [split; [apply record_boundary_ok, switch_family_ok; auto; lia | left; lia]|].
    destruct (Z.eqb_spec dA 0);
      [split; [apply record_boundary_ok, switch_family_ok; auto; lia | left; lia]|].
    destruct (Z.eqb_spec dA 1);
      [split; [apply record_boundary_ok, switch_family_ok; auto; lia | left; lia]|].
    split; [apply record_boundary_ok; exact Hg | right; lia].
  - rewrite Z.gtb_ltb. destruct (Z.ltb_spec (d1 g) dA); [|lia].
    destruct (Z.eqb_spec dA 1);
      [split; [apply record_boundary_ok, switch_family_ok; auto; lia | left; lia]|].
    destruct (Z.eqb_spec dA 2);
      [split; [apply record_boundary_ok, switch_family_ok; auto; lia | left; lia]|].
    destruct (Z.eqb_spec dA 3);
      [split; [apply record_boundary_ok, switch_family_ok; auto; lia | left; lia]|].
    split; [apply record_boundary_ok; exact Hg | right; lia].
Qed.

(** Whatever the state, the encoded bit is -1, 0 or 1. *)
Lemma encode_delta_bit g k dA :
  let b := fst (encode_delta g k dA) in b = -1 \/ b = 0 \/ b = 1.
Proof.
  unfold encode_delta.
  destruct (dA =? d0 g); [simpl; auto|].
  destruct (dA =? d1 g); [simpl; auto|].
  destruct (dA <? d0 g).
  - destruct (dA =? -1); [simpl; auto|].
    destruct (dA =? 0); [simpl; auto|].
    destruct (dA =? 1); simpl; auto.
  - destruct (dA >? d1 g); [|simpl; auto].
    destruct (dA =? 1); [simpl; auto|].
    destruct (dA =? 2); [simpl; auto|].
    destruct (dA =? 3); simpl; auto.
Qed.

(** ** One pass of the loop body *)

Lemma step_emit tbl e e' (last : bool) :
  step tbl e = (if last then Finished e' else Next e') ->
  exists vA b g,
    nth_error tbl (Z.to_nat (i e)) = Some vA
    /\ encode_delta (fam e) (i e) (vA - va e) = (b, g)
    /\ (b = 0 \/ b = 1)
    /\ (i e =? 255) = last
    /\ fam e' = g /\ va e' = vA
    /\ i e' = (if last then i e else i e + 1)
    /\ let reg0 := if Z.land (i e) 0x1f =? 0 then 0 else reg e in
       let reg1 := if b =? 1 then Z.lor reg0 0x80000000 else reg0 in
       if Z.land (i e) 31 =? 31
       then reg e' = reg1
            /\ trace e' = trace e ++ [(mslut (Z.shiftr (i e) 5), reg1)]
       else reg e' = Z.shiftr reg1 1 /\ trace e' = trace e.
Proof.
  unfold step.
  destruct (nth_error tbl (Z.to_nat (i e))) as [vA|];
    [|destruct last; discriminate].
  pose proof (encode_delta_bit (fam e) (i e) (vA - va e)) as Hb.
  destruct (encode_delta (fam e) (i e) (vA - va e)) as [b g] eqn:Henc.
  simpl in Hb. intros H. exists vA, b, g.
  destruct (Z.ltb_spec b 0); [destruct last; discriminate|].
  destruct (s g >? 3); [destruct last; discriminate|].
  assert (Hb01 : b = 0 \/ b = 1) by lia.
  destruct (i e =? 255); destruct last; try discriminate;
    injection H as <-; destruct (Z.land (i e) 31 =? 31); simpl;
    repeat split; auto.
Qed.

Lemma step_failed tbl e e' :
  step tbl e = Failed e' ->
  exists vA b g,
    nth_error tbl (Z.to_nat (i e)) = Some vA
    /\ encode_delta (fam e) (i e) (vA - va e) = (b, g)
    /\ (b = -1 \/ 3 < s g)
    /\ fam e' = g /\ i e' = i e /\ trace e' = trace e.
Proof.
  unfold step.
  destruct (nth_error tbl (Z.to_nat (i e))) as [vA|]; [|discriminate].
  pose proof (encode_delta_bit (fam e) (i e) (vA - va e)) as Hb.
  destruct (encode_delta (fam e) (i e) (vA - va e)) as [b g] eqn:Henc.
  simpl in Hb. intros H. exists vA, b, g.
  destruct (Z.ltb_spec b 0).
  - injection H as <-. simpl. repeat split; auto. lia.
  - rewrite Z.gtb_ltb in H. destruct (Z.ltb_spec 3 (s g)).
    + injection H as <-. simpl. repeat split; auto.
    + destruct (i e =? 255); discriminate.
Qed.

Lemma step_fault tbl e e' :
  step tbl e = Fault e' -> nth_error tbl (Z.to_nat (i e)) = None /\ e' = e.
Proof.
  unfold step.
  destruct (nth_error tbl (Z.to_nat (i e))) as [vA|].
  - destruct (encode_delta (fam e) (i e) (vA - va e)) as [b g].
    destruct (b <? 0); [discriminate|].
    destruct (s g >? 3); [discriminate|].
    destruct (i e =? 255); discriminate.
  - intros H. injection H as <-. auto.
Qed.

(** ** The states the loop passes through *)

Lemma state_at_succ tbl n e :
  state_at tbl (S n) = Some e ->
  exists e0, state_at tbl n = Some e0 /\ step tbl e0 = Next e.
Proof.
  simpl. destruct (state_at tbl n) as [e0|]; [|discriminate].
  destruct (step tbl e0) eqn:Hstep; try discriminate.
  intros H. injection H as <-. eauto.
Qed.

Lemma state_at_index tbl n e :
  state_at tbl n = Some e -> i e = Z.of_nat n /\ (n <= 255)%nat.
Proof.
  revert e. induction n as [|n IH]; intros e H.
  - injection H as <-. simpl. split; [reflexivity | lia].
  - apply state_at_succ in H. destruct H as (e0 & H0 & Hstep).
    destruct (IH _ H0) as [Hi Hn].
    apply (step_emit tbl e0 e false) in Hstep.
    destruct Hstep as (vA & b & g & _ & _ & _ & Hlast & _ & _ & Hi' & _).
    apply Z.eqb_neq in Hlast. lia.
Qed.

Lemma state_at_le tbl n e m :
  state_at tbl n = Some e -> (m <= n)%nat -> exists em, state_at tbl m = Some em.
Proof.
  revert e. induction n as [|n IH]; intros e H Hm.
  - replace m with 0%nat by lia. eauto.
  - destruct (Nat.eq_dec m (S n)) as [->|Hne]; [eauto|].
    apply state_at_succ in H. destruct H as (e0 & H0 & _).
    apply (IH e0 H0). lia.
Qed.

(** The bit emitted on a pass that does not stop the loop early. *)
Lemma emitted_bit_emit tbl n e e' (last : bool) vA b g :
  state_at tbl n = Some e ->
  step tbl e = (if last then Finished e' else Next e') ->
  nth_error tbl (Z.to_nat (i e)) = Some vA ->
  encode_delta (fam e) (i e) (vA - va e) = (b, g) ->
  emitted_bit tbl n = Some b.
Proof.
  intros Hst Hstep Hnth Henc. unfold emitted_bit. rewrite Hst.
  assert (Hbit : step_bit tbl e = Some b).
  { unfold step_bit. rewrite Hnth, Henc. reflexivity. }
  destruct last; rewrite Hstep; exact Hbit.
Qed.

(** ** Bit packing *)

Ltac euclid := Z.div_mod_to_equations; lia.

Lemma land_31 n : Z.land n 31 = n mod 32.
Proof. change 31 with (Z.ones 5). rewrite Z.land_ones by lia. reflexivity. Qed.

Lemma shiftr_5 n : Z.shiftr n 5 = n / 32.
Proof. rewrite Z.shiftr_div_pow2 by lia. reflexivity. Qed.

Lemma bits_below_32 a :
  0 <= a -> (forall p, 32 <= p -> Z.testbit a p = false) -> a < 2 ^ 32.
Proof.
  intros Ha Hbits. destruct (Z_lt_le_dec a (2 ^ 32)) as [|Hge]; [assumption|].
  assert (Hpos : 0 < a) by lia.
  apply Z.log2_le_pow2 in Hge; [|exact Hpos].
  pose proof (Z.bit_log2 a Hpos) as Hlog.
  rewrite (Hbits _ Hge) in Hlog. discriminate.
Qed.

(** Setting the top bit for the bit of position [j] of the block. *)
Lemma accumulate_bits (B : Z -> bool) (base j r0 b : Z) :
  0 <= j <= 31 -> 0 <= r0 -> (b = 0 \/ b = 1) ->
  (forall p, 0 <= p ->
             Z.testbit r0 p
             = (31 - j <=? p) && (p <=? 30) && B (base + (p - (31 - j)))) ->
  B (base + j) = (b =? 1) ->
  let r1 := if b =? 1 then Z.lor r0 0x80000000 else r0 in
  0 <= r1 /\
  forall p, 0 <= p ->
            Z.testbit r1 p
            = (31 - j <=? p) && (p <=? 31) && B (base + (p - (31 - j))).
Proof.
  intros Hj Hr0 Hb Hbits HB r1. subst r1.
  change 0x80000000 with (2 ^ 31).
  split.
  - destruct (b =? 1); [apply Z.lor_nonneg; lia | exact Hr0].
  - intros p Hp.
    destruct (Z.eq_dec p 31) as [->|Hne].
    + replace (base + (31 - (31 - j))) with (base + j) by lia.
      rewrite HB.
      replace (31 - j <=? 31) with true by (symmetry; apply Z.leb_le; lia).
      change (31 <=? 31) with true. rewrite !andb_true_l.
      destruct (b =? 1).
      * rewrite Z.lor_spec, Z.pow2_bits_true by lia. apply orb_true_r.
      * rewrite Hbits by lia. change (31 <=? 30) with false.
        rewrite andb_false_r. reflexivity.
    + assert (Hsame : Z.testbit (if b =? 1 then Z.lor r0 (2 ^ 31) else r0) p
                      = Z.testbit r0 p).
      { destruct (b =? 1); [|reflexivity].
        rewrite Z.lor_spec, Z.pow2_bits_false by lia. apply orb_false_r. }
      rewrite Hsame, Hbits by lia.
      destruct (Z.leb_spec p 30), (Z.leb_spec p 31); try lia; reflexivity.
Qed.

(** The right shift that follows, when the block is not complete. *)
Lemma shift_bits (B : Z -> bool) (base j r1 : Z) :
  0 <= j < 31 -> 0 <= r1 ->
  (forall p, 0 <= p ->
             Z.testbit r1 p
             = (31 - j <=? p) && (p <=? 31) && B (base + (p - (31 - j)))) ->
  0 <= Z.shiftr r1 1 /\
  forall p, 0 <= p ->
            Z.testbit (Z.shiftr r1 1) p
            = (31 - (j + 1) <=? p) && (p <=? 30)
              && B (base + (p - (31 - (j + 1)))).
Proof.
  intros Hj Hr1 Hbits. split; [apply Z.shiftr_nonneg; exact Hr1|].
  intros p Hp. rewrite Z.shiftr_spec, Hbits by lia.
  replace (base + (p + 1 - (31 - j))) with (base + (p - (31 - (j + 1)))) by lia.
  destruct (Z.leb_spec (31 - j) (p + 1)), (Z.leb_spec (31 - (j + 1)) p);
    try lia;
    destruct (Z.leb_spec (p + 1) 31), (Z.leb_spec p 30); try lia; reflexivity.
Qed.

(** A completed block is a well-formed word. *)
Lemma full_word tbl k r1 :
  0 <= r1 ->
  (forall p, 0 <= p ->
             Z.testbit r1 p
             = (31 - 31 <=? p) && (p <=? 31)
               && bitB tbl (32 * k + (p - (31 - 31)))) ->
  word_ok tbl k r1.
Proof.
  intros Hr1 Hbits. split; [exact Hr1|].
  intros p Hp. rewrite Hbits by lia.
  replace (32 * k + (p - (31 - 31))) with (32 * k + p) by lia.
  destruct (Z.leb_spec (31 - 31) p), (Z.leb_spec p 31), (Z.ltb_spec p 32);
    try lia; reflexivity.
Qed.

Lemma word_ok_range tbl k word : word_ok tbl k word -> 0 <= word < 2 ^ 32.
Proof.
  intros [Hnn Hbits]. split; [exact Hnn|].
  apply bits_below_32; [exact Hnn|].
  intros p Hp. rewrite Hbits by lia.
  destruct (Z.ltb_spec p 32); [lia | reflexivity].
Qed.

(** What one emitting pass does to the accumulator and to the trace. *)
Lemma emit_pass tbl n e e' (last : bool) :
  state_at tbl n = Some e ->
  trace_ok tbl (Z.of_nat n) (trace e) ->
  reg_ok tbl (Z.of_nat n) (reg e) ->
  step tbl e = (if last then Finished e' else Next e') ->
  trace_ok tbl (Z.of_nat n + 1) (trace e')
  /\ (last = false -> reg_ok tbl (Z.of_nat n + 1) (reg e')).
Proof.
  intros Hst [Hlen Hwords] [Hr0 Hbits] Hstep.
  destruct (state_at_index _ _ _ Hst) as [Hi Hn].
  destruct (step_emit _ _ _ _ Hstep)
    as (vA & b & g & Hnth & Henc & Hb & Hlast & _ & _ & _ & Hpack).
  pose proof (emitted_bit_emit _ _ _ _ _ _ _ _ Hst Hstep Hnth Henc) as Hem.
  assert (HB : bitB tbl (32 * (Z.of_nat n / 32) + Z.of_nat n mod 32) = (b =? 1)).
  { replace (32 * (Z.of_nat n / 32) + Z.of_nat n mod 32) with (Z.of_nat n)
      by euclid.
    unfold bitB. rewrite Nat2Z.id, Hem. reflexivity. }
  rewrite Hi in Hpack. cbv zeta in Hpack.
  change 0x1f with 31 in Hpack. rewrite !land_31, shiftr_5 in Hpack.
  set (N := Z.of_nat n) in *. set (j := N mod 32) in *. set (k := N / 32) in *.
  assert (Hj : 0 <= j <= 31) by (subst j; euclid).
  destruct (accumulate_bits (bitB tbl) (32 * k) j
              (if j =? 0 then 0 else reg e) b Hj Hr0 Hb Hbits HB)
    as [Hr1 Hbits1].
  set (r1 := if b =? 1
             then Z.lor (if j =? 0 then 0 else reg e) 0x80000000
             else (if j =? 0 then 0 else reg e)) in *.
  destruct (Z.eqb_spec j 31) as [Hj31|Hj31].
  - destruct Hpack as [Hreg Htr].
    assert (Hk1 : (N + 1) / 32 = k + 1) by (subst j k; euclid).
    assert (Hj1 : (N + 1) mod 32 = 0) by (subst j k; euclid).
    split.
    + unfold trace_ok. rewrite Htr, Hk1, length_app. simpl. split; [lia|].
      intros k' Hk'. destruct (Z.eq_dec k' k) as [->|Hne].
      * exists r1. split.
        -- rewrite nth_error_app2 by lia.
           replace (Z.to_nat k - length (trace e))%nat with 0%nat by lia.
           reflexivity.
        -- apply full_word; [exact Hr1|]. rewrite Hj31 in Hbits1. exact Hbits1.
      * destruct (Hwords k' ltac:(lia)) as (word & Hw & Hok).
        exists word. split; [|exact Hok].
        rewrite nth_error_app1 by lia. exact Hw.
    + intros _. unfold reg_ok. rewrite Hj1. simpl. split; [lia|].
      intros p Hp. rewrite Z.testbit_0_l.
      destruct (Z.leb_spec 31 p), (Z.leb_spec p 30); try lia; reflexivity.
  - destruct Hpack as [Hreg Htr].
    assert (Hk1 : (N + 1) / 32 = k) by (subst j k; euclid).
    assert (Hj1 : (N + 1) mod 32 = j + 1) by (subst j k; euclid).
    split.
    + unfold trace_ok. rewrite Htr, Hk1. split; [exact Hlen | exact Hwords].
    + intros _. unfold reg_ok. rewrite Hj1, Hk1. cbv zeta.
      replace (j + 1 =? 0) with false by (symmetry; apply Z.eqb_neq; lia).
      rewrite Hreg.
      apply shift_bits; [lia | exact Hr1 | exact Hbits1].
Qed.

(** The invariant of the loop on the trace and on the accumulator. *)
Lemma state_at_packing tbl n e :
  state_at tbl n = Some e ->
  trace_ok tbl (Z.of_nat n) (trace e) /\ reg_ok tbl (Z.of_nat n) (reg e).
Proof.
  revert e. induction n as [|n IH]; intros e H.
  - injection H as <-. split.
    + split; [reflexivity|]. intros k Hk. change (Z.of_nat 0 / 32) with 0 in Hk. lia.
    + split; [reflexivity|]. intros p Hp. simpl. rewrite Z.testbit_0_l.
      destruct (Z.leb_spec 31 p), (Z.leb_spec p 30); try lia; reflexivity.
  - apply state_at_succ in H. destruct H as (e0 & H0 & Hstep).
    destruct (IH _ H0) as [Htr Hreg].
    destruct (emit_pass tbl n e0 e false H0 Htr Hreg Hstep) as [Htr' Hreg'].
    rewrite Nat2Z.inj_succ. unfold Z.succ. auto.
Qed.

(** ** The family state and the running previous value *)

Lemma entry_nth_error tbl n vA :
  nth_error tbl n = Some vA -> entry tbl (Z.of_nat n) = vA.
Proof.
  intros H. unfold entry. rewrite Nat2Z.id. apply nth_error_nth. exact H.
Qed.

Lemma state_at_family tbl n e :
  state_at tbl n = Some e ->
  family_ok (fam e)
  /\ va e = (if Z.of_nat n =? 0 then 0 else entry tbl (Z.of_nat n - 1)).
Proof.
  revert e. induction n as [|n IH]; intros e H.
  - injection H as <-. simpl. unfold family_ok. simpl. repeat split; lia.
  - apply state_at_succ in H. destruct H as (e0 & H0 & Hstep).
    destruct (IH _ H0) as [Hfam _].
    destruct (state_at_index _ _ _ H0) as [Hi _].
    destruct (step_emit _ _ _ false Hstep)
      as (vA & b & g & Hnth & Henc & _ & _ & Hg & Hva & _).
    pose proof (encode_delta_spec (fam e0) (i e0) (vA - va e0) Hfam) as Hspec.
    rewrite Henc in Hspec. destruct Hspec as [Hg' _].
    split; [rewrite Hg; exact Hg'|].
    rewrite Hva, Nat2Z.inj_succ. unfold Z.succ.
    replace (Z.of_nat n + 1 =? 0) with false by (symmetry; apply Z.eqb_neq; lia).
    replace (Z.of_nat n + 1 - 1) with (Z.of_nat n) by lia.
    rewrite Hi, Nat2Z.id in Hnth. symmetry. apply entry_nth_error. exact Hnth.
Qed.

(** The pass at index [n] of a table of at least 256 entries: it stops the
    loop as failed exactly when the delta at [n] is outside the window. *)
Lemma step_at tbl n e :
  (256 <= length tbl)%nat ->
  state_at tbl n = Some e ->
  (delta_ok tbl (Z.of_nat n) ->
   exists e', step tbl e = (if Z.of_nat n =? 255 then Finished e' else Next e'))
  /\ (~ delta_ok tbl (Z.of_nat n) ->
      exists e', step tbl e = Failed e' /\ i e' = Z.of_nat n
                 /\ trace e' = trace e).
Proof.
  intros Hlen Hst.
  destruct (state_at_index _ _ _ Hst) as [Hi Hn].
  destruct (state_at_family _ _ _ Hst) as [Hfam Hva].
  destruct (nth_error tbl n) as [vA|] eqn:Hnth;
    [|apply nth_error_None in Hnth; lia].
  assert (HdA : vA - va e = delta tbl (Z.of_nat n)).
  { unfold delta. rewrite (entry_nth_error _ _ _ Hnth), Hva. reflexivity. }
  pose proof (encode_delta_spec (fam e) (i e) (vA - va e) Hfam) as Hspec.
  unfold step. rewrite Hi, Nat2Z.id, Hnth. rewrite Hi in Hspec.
  destruct (encode_delta (fam e) (Z.of_nat n) (vA - va e)) as [b g].
  destruct Hspec as [(_ & _ & Hs & _) Hb]. rewrite HdA in Hb.
  unfold delta_ok. split; intros Hok.
  - destruct Hb as [[_ Hb]|[Hbad _]]; [|lia].
    replace (b <? 0) with false by (symmetry; apply Z.ltb_ge; lia).
    replace (s g >? 3) with false
      by (symmetry; rewrite Z.gtb_ltb; apply Z.ltb_ge; lia).
    destruct (Z.of_nat n =? 255); eauto.
  - destruct Hb as [[Hin _]|[_ ->]]; [lia|].
    change (-1 <? 0) with true. cbv iota. eexists. simpl. auto.
Qed.

Lemma delta_ok_dec tbl k : {delta_ok tbl k} + {~ delta_ok tbl k}.
Proof.
  unfold delta_ok.
  destruct (Z_le_dec (-1) (delta tbl k)), (Z_le_dec (delta tbl k) 3);
    (left; lia) || (right; lia).
Qed.

(** ** The loop as a whole *)

Lemma state_at_next tbl n e e' :
  state_at tbl n = Some e -> step tbl e = Next e' ->
  state_at tbl (S n) = Some e'.
Proof. intros H Hstep. simpl. rewrite H, Hstep. reflexivity. Qed.

(** With enough fuel the loop stops, at the first pass that does not fall
    through to the next index. *)
Lemma loop_run tbl :
  forall fuel n e,
    state_at tbl n = Some e -> (256 <= n + fuel)%nat ->
    exists m em r,
      (n <= m)%nat /\ state_at tbl m = Some em /\ step tbl em = r
      /\ (forall e', r <> Next e')
      /\ encode_loop fuel tbl e = Stopped r.
Proof.
  induction fuel as [|fuel IH]; intros n e Hst Hfuel.
  - destruct (state_at_index _ _ _ Hst) as [_ Hn]. lia.
  - simpl. destruct (step tbl e) as [e'|e'|e'|e'] eqn:Hstep.
    + destruct (IH (S n) e' (state_at_next _ _ _ _ Hst Hstep) ltac:(lia))
        as (m & em & r & Hm & Hsm & Hr & Hnn & Hloop).
      exists m, em, r. repeat split; auto. lia.
    + exists n, e, (Failed e'). repeat split; auto; discriminate.
    + exists n, e, (Finished e'). repeat split; auto; discriminate.
    + exists n, e, (Fault e'). repeat split; auto; discriminate.
Qed.

(** The model's iteration bound is never the reason the loop ends. *)
Lemma encode_loop_fuel tbl : exists r, encode_loop 256 tbl init = Stopped r.
Proof.
  destruct (loop_run tbl 256 0 init eq_refl ltac:(lia))
    as (m & em & r & _ & _ & _ & _ & Hloop).
  eauto.
Qed.

(** The loop stops as failed at the first index whose delta is outside the
    window. *)
Lemma loop_first_bad tbl j :
  (256 <= length tbl)%nat -> 0 <= j <= 255 -> ~ delta_ok tbl j ->
  forall fuel n e,
    state_at tbl n = Some e -> (256 <= n + fuel)%nat -> Z.of_nat n <= j ->
    (forall k, 0 <= k < Z.of_nat n -> delta_ok tbl k) ->
    exists e' em,
      encode_loop fuel tbl e = Stopped (Failed e')
      /\ state_at tbl (Z.to_nat (i e')) = Some em /\ trace e' = trace em
      /\ 0 <= i e' <= j /\ ~ delta_ok tbl (i e')
      /\ (forall k, 0 <= k < i e' -> delta_ok tbl k).
Proof.
  intros Hlen Hj Hbad.
  induction fuel as [|fuel IH]; intros n e Hst Hfuel Hn Hbefore.
  - destruct (state_at_index _ _ _ Hst) as [_ Hn']. lia.
  - destruct (step_at tbl n e Hlen Hst) as [Hgood Hfail]. simpl.
    destruct (delta_ok_dec tbl (Z.of_nat n)) as [Hok|Hnok].
    + assert (Hlt : Z.of_nat n < j).
      { destruct (Z.eq_dec (Z.of_nat n) j) as [Heq|]; [|lia].
        rewrite Heq in Hok. contradiction. }
      destruct (Hgood Hok) as [e' Hstep].
      replace (Z.of_nat n =? 255) with false in Hstep
        by (symmetry; apply Z.eqb_neq; lia).
      rewrite Hstep.
      apply (IH (S n) e' (state_at_next _ _ _ _ Hst Hstep)); try lia.
      intros k Hk. destruct (Z.eq_dec k (Z.of_nat n)) as [->|]; [exact Hok|].
      apply Hbefore. lia.
    + destruct (Hfail Hnok) as (e' & Hstep & Hi & Htr).
      rewrite Hstep. exists e', e. rewrite Hi, Nat2Z.id.
      split; [reflexivity|]. split; [exact Hst|]. split; [exact Htr|].
      split; [lia|]. split; [exact Hnok | exact Hbefore].
Qed.

(** The loop runs to the end when every delta is inside the window. *)
Lemma loop_all_ok tbl :
  (256 <= length tbl)%nat ->
  forall fuel n e,
    state_at tbl n = Some e -> (256 <= n + fuel)%nat ->
    (forall k, Z.of_nat n <= k <= 255 -> delta_ok tbl k) ->
    exists e', encode_loop fuel tbl e = Stopped (Finished e').
Proof.
  intros Hlen. induction fuel as [|fuel IH]; intros n e Hst Hfuel Hok.
  - destruct (state_at_index _ _ _ Hst) as [_ Hn']. lia.
  - destruct (state_at_index _ _ _ Hst) as [_ Hn'].
    destruct (step_at tbl n e Hlen Hst) as [Hgood _]. simpl.
    destruct (Hgood (Hok (Z.of_nat n) ltac:(lia))) as [e' Hstep].
    destruct (Z.eqb_spec (Z.of_nat n) 255) as [Heq|Hne]; rewrite Hstep.
    + eauto.
    + apply (IH (S n) e' (state_at_next _ _ _ _ Hst Hstep)); try lia.
      intros k Hk. apply Hok. lia.
Qed.

(** The call on a table of at least 256 entries, with the driver object set. *)
Lemma write_wave_table_long tbl :
  (256 <= length tbl)%nat ->
  write_wave_table true tbl
  = match encode_loop 256 tbl init with
    | Stopped (Failed e) | Stopped (Finished e) =>
        ([(start_sin, 0); (start_sin90, 248)]
           ++ trace e ++ mslutsel_writes (fam e), Returned)
    | Stopped (Fault e) =>
        ([(start_sin, 0); (start_sin90, 248)] ++ trace e, Raised IndexError)
    | Stopped (Next e) | Unfinished e =>
        ([(start_sin, 0); (start_sin90, 248)] ++ trace e, OutOfFuel)
    end.
Proof.
  intros Hlen. unfold write_wave_table, sample_indices.
  cbn [negb existsb].
  repeat match goal with
         | |- context [Z.of_nat (length tbl) <=? ?k] =>
             replace (Z.of_nat (length tbl) <=? k) with false
               by (symmetry; apply Z.leb_gt; lia)
         end.
  reflexivity.
Qed.

(** The call aborts before any write when the driver object is missing or
    the table has fewer than 256 entries. *)
Lemma write_wave_table_no_driver tbl :
  write_wave_table false tbl = ([], Raised RuntimeError).
Proof. reflexivity. Qed.

Lemma write_wave_table_short tbl :
  (length tbl < 256)%nat ->
  write_wave_table true tbl = ([], Raised IndexError).
Proof.
  intros Hlen. unfold write_wave_table, sample_indices. cbn [negb existsb].
  replace (Z.of_nat (length tbl) <=? 255) with true
    by (symmetry; apply Z.leb_le; lia).
  rewrite !orb_true_r. reflexivity.
Qed.

(** Every index up to a pass that emits has an emitted bit, 0 or 1. *)
Lemma emitted_bit_defined tbl m em e' (last : bool) :
  state_at tbl m = Some em ->
  step tbl em = (if last then Finished e' else Next e') ->
  forall n, (n <= m)%nat ->
            exists b, emitted_bit tbl n = Some b /\ (b = 0 \/ b = 1).
Proof.
  intros Hst Hstep n Hn.
  destruct (Nat.eq_dec n m) as [->|Hne].
  - destruct (step_emit _ _ _ _ Hstep)
      as (vA & b & g & Hnth & Henc & Hb & _).
    exists b. split; [|exact Hb].
    eapply emitted_bit_emit; eauto.
  - destruct (state_at_le tbl m em (S n) Hst ltac:(lia)) as [en' Hsn].
    apply state_at_succ in Hsn. destruct Hsn as (en & Hen & Hnext).
    destruct (step_emit _ _ _ false Hnext)
      as (vA & b & g & Hnth & Henc & Hb & _).
    exists b. split; [|exact Hb].
    eapply (emitted_bit_emit tbl n en en' false); eauto.
Qed.

(** ** What stops the loop *)

(** A reachable pass fails only on a delta outside the window: the check on
    the segment count never fires. *)
Lemma failure_only_on_delta tbl n e e' :
  state_at tbl n = Some e -> step tbl e = Failed e' ->
  exists vA, nth_error tbl n = Some vA
             /\ (vA - va e < -1 \/ 3 < vA - va e)
             /\ s (fam e') <= 3.
Proof.
  intros Hst Hstep.
  destruct (state_at_index _ _ _ Hst) as [Hi _].
  destruct (state_at_family _ _ _ Hst) as [Hfam _].
  destruct (step_failed _ _ _ Hstep)
    as (vA & b & g & Hnth & Henc & Hb & Hg & _).
  pose proof (encode_delta_spec (fam e) (i e) (vA - va e) Hfam) as Hspec.
  rewrite Henc in Hspec. destruct Hspec as [(_ & _ & Hs & _) Hcase].
  exists vA. rewrite Hi, Nat2Z.id in Hnth. rewrite Hg.
  split; [exact Hnth|]. split; [|lia].
  destruct Hcase as [[_ Hb01]|[Hout _]]; [lia | exact Hout].
Qed.

(** Every table the generator returns is encoded to the last index. *)
Lemma generated_table_encodes L fac1000 tbl :
  Generator.generate_constant_torque_wave L fac1000 = Some tbl ->
  exists e, encode_loop 256 tbl init = Stopped (Finished e).
Proof.
  intros Hgen.
  destruct (GeneratorProps.generate_steps_ok _ _ _ Hgen) as [Hlen Hok].
  apply (loop_all_ok tbl ltac:(lia) 256 0 init eq_refl ltac:(lia)).
  intros k Hk. apply GeneratorProps.steps_ok_delta; [exact Hok | lia].
Qed.

(** The loop on the table with the +10 jump stops at index 40, after the
    word of block 0. *)
Lemma jump_table_stops :
  encode_loop 256 jump_table init = Stopped (Failed jump_stop).
Proof. vm_compute. reflexivity. Qed.

(** ** The claims on compression *)

(** C1, as stated, fails: a table with a single-step delta of +10 does not
    make the call raise. *)
Lemma bad_delta_raises_nothing :
  ~ (forall tbl j,
        0 <= j <= 255 -> (delta tbl j < -1 \/ 3 < delta tbl j) ->
        exists ex, snd (write_wave_table true tbl) = Raised ex).
Proof.
  intros H.
  destruct (H jump_table 40 ltac:(lia) ltac:(right; vm_compute; reflexivity))
    as [ex Hex].
  vm_compute in Hex. discriminate.
Qed.

(** C1, amended: on a table of at least 256 entries with a single-step delta
    outside [-1, 3] at some index up to 255, the encoding loop stops at the
    first such index, having written one mslut word per block completed
    before it; no error is raised: the call goes on to write the MSLUTSEL
    fields and returns. *)
Theorem bad_delta_stops_encoding (tbl : list Z) (j : Z) :
  (256 <= length tbl)%nat -> 0 <= j <= 255 ->
  (delta tbl j < -1 \/ 3 < delta tbl j) ->
  exists e,
    encode_loop 256 tbl init = Stopped (Failed e)
    /\ 0 <= i e <= j
    /\ (delta tbl (i e) < -1 \/ 3 < delta tbl (i e))
    /\ (forall k, 0 <= k < i e -> -1 <= delta tbl k <= 3)
    /\ Z.of_nat (length (trace e)) = i e / 32
    /\ write_wave_table true tbl
       = ([(start_sin, 0); (start_sin90, 248)]
            ++ trace e ++ mslutsel_writes (fam e), Returned).
Proof.
  intros Hlen Hj Hbad.
  assert (Hnok : ~ delta_ok tbl j) by (unfold delta_ok; lia).
  destruct (loop_first_bad tbl j Hlen Hj Hnok 256 0 init eq_refl
              ltac:(lia) ltac:(lia) ltac:(intros k Hk; lia))
    as (e & em & Hloop & Hst & Htr & Hi & Hbad' & Hbefore).
  exists e. split; [exact Hloop|]. split; [exact Hi|].
  split; [unfold delta_ok in Hbad'; lia|]. split; [exact Hbefore|].
  split.
  - destruct (state_at_packing _ _ _ Hst) as [[Hl _] _].
    rewrite Htr, Hl, Z2Nat.id by lia. reflexivity.
  - rewrite (write_wave_table_long tbl Hlen), Hloop. reflexivity.
Qed.

Lemma bad_delta_stops_encoding_witness :
  (256 <= length jump_table)%nat /\ 0 <= 40 <= 255 /\
  (delta jump_table 40 < -1 \/ 3 < delta jump_table 40) /\
  exists e,
    encode_loop 256 jump_table init = Stopped (Failed e)
    /\ 0 <= i e <= 40
    /\ (delta jump_table (i e) < -1 \/ 3 < delta jump_table (i e))
    /\ (forall k, 0 <= k < i e -> -1 <= delta jump_table k <= 3)
    /\ Z.of_nat (length (trace e)) = i e / 32
    /\ write_wave_table true jump_table
       = ([(start_sin, 0); (start_sin90, 248)]
            ++ trace e ++ mslutsel_writes (fam e), Returned).
Proof.
  assert (Hlen : (256 <= length jump_table)%nat) by (vm_compute; lia).
  assert (Hbad : delta jump_table 40 < -1 \/ 3 < delta jump_table 40)
    by (right; vm_compute; reflexivity).
  split; [exact Hlen|]. split; [lia|]. split; [exact Hbad|].
  apply (bad_delta_stops_encoding jump_table 40 Hlen); [lia | exact Hbad].
Defined.

(** C2, as stated, fails: when the encoder stops on the +10 jump, register
    writes have been issued. *)
Lemma failed_encoding_has_written :
  ~ (forall tbl e,
        encode_loop 256 tbl init = Stopped (Failed e) ->
        fst (write_wave_table true tbl) = []).
Proof.
  intros H.
  specialize (H jump_table jump_stop jump_table_stops).
  vm_compute in H. discriminate H.
Qed.

(** C2, amended: when the encoder stops on an unrepresentable delta at index
    [i], the call reports no error; it has written start_sin, start_sin90 and
    the words mslut0 .. mslut(i/32 - 1) before the stop, and writes w0..w3 and
    x1..x3 after it. *)
Theorem failed_encoding_writes (tbl : list Z) (e : enc) :
  (256 <= length tbl)%nat ->
  encode_loop 256 tbl init = Stopped (Failed e) ->
  write_wave_table true tbl
  = ((start_sin, 0) :: (start_sin90, 248)
       :: trace e ++ mslutsel_writes (fam e), Returned)
  /\ Z.of_nat (length (trace e)) = i e / 32
  /\ forall k, 0 <= k < i e / 32 ->
               exists word, nth_error (trace e) (Z.to_nat k)
                            = Some (mslut k, word).
Proof.
  intros Hlen Hloop.
  split; [rewrite (write_wave_table_long tbl Hlen), Hloop; reflexivity|].
  destruct (loop_run tbl 256 0 init eq_refl ltac:(lia))
    as (m & em & r & _ & Hst & Hstep & _ & Hloop').
  rewrite Hloop in Hloop'. injection Hloop' as <-.
  destruct (step_failed _ _ _ Hstep) as (vA & b & g & _ & _ & _ & _ & Hi & Htr).
  destruct (state_at_index _ _ _ Hst) as [Him _].
  destruct (state_at_packing _ _ _ Hst) as [[Hl Hwords] _].
  rewrite Htr, Hi, Him. split; [exact Hl|].
  intros k Hk. destruct (Hwords k Hk) as (word & Hw & _). eauto.
Qed.

Lemma failed_encoding_writes_witness :
  exists e,
    (256 <= length jump_table)%nat /\
    encode_loop 256 jump_table init = Stopped (Failed e) /\
    (write_wave_table true jump_table
     = ((start_sin, 0) :: (start_sin90, 248)
          :: trace e ++ mslutsel_writes (fam e), Returned)
     /\ Z.of_nat (length (trace e)) = i e / 32
     /\ forall k, 0 <= k < i e / 32 ->
                  exists word, nth_error (trace e) (Z.to_nat k)
                               = Some (mslut k, word)).
Proof.
  assert (Hlen : (256 <= length jump_table)%nat) by (vm_compute; lia).
  exists jump_stop. split; [exact Hlen|].
  split; [exact jump_table_stops|].
  exact (failed_encoding_writes jump_table jump_stop Hlen jump_table_stops).
Defined.

(** C3, on the code: a table that asks for a fourth family switch (at index
    3) is encoded to the last index and the call returns; the switch changes
    the active deltas back to (0, 1) but W3 still says 2 and no boundary is
    recorded for it. *)
Theorem fourth_switch_not_recorded :
  exists e,
    encode_loop 256 four_switch_table init = Stopped (Finished e)
    /\ fam e = {| d0 := 0; d1 := 1; w := [1; 2; 1; 2]; x := [0; 1; 2];
                  s := 3 |}
    /\ write_wave_table true four_switch_table
       = ([(start_sin, 0); (start_sin90, 248);
           (mslut 0, 5); (mslut 1, 0); (mslut 2, 0); (mslut 3, 0);
           (mslut 4, 0); (mslut 5, 0); (mslut 6, 0); (mslut 7, 0);
           (w0, 1); (w1, 2); (w2, 1); (w3, 2);
           (x1, 0); (x2, 1); (x3, 2)], Returned).
Proof.
  eexists. split; [vm_compute; reflexivity|].
  split; [reflexivity | vm_compute; reflexivity].
Qed.

(** C8: when the loop encodes a table to the last index, eight words have
    been written, the word of block [idx / 32] being the write of that rank,
    and bit [idx mod 32] of it is the bit emitted for index [idx]; the words
    fit in 32 bits. *)
Theorem mslut_bit_layout (tbl : list Z) (e : enc) :
  encode_loop 256 tbl init = Stopped (Finished e) ->
  write_wave_table true tbl
  = ([(start_sin, 0); (start_sin90, 248)]
       ++ trace e ++ mslutsel_writes (fam e), Returned) /\
  length (trace e) = 8%nat /\
  forall idx, 0 <= idx <= 255 ->
    exists word b,
      nth_error (trace e) (Z.to_nat (idx / 32)) = Some (mslut (idx / 32), word)
      /\ 0 <= word < 2 ^ 32
      /\ emitted_bit tbl (Z.to_nat idx) = Some b
      /\ (b = 0 \/ b = 1)
      /\ Z.testbit word (idx mod 32) = (b =? 1).
Proof.
  intros Hloop.
  destruct (loop_run tbl 256 0 init eq_refl ltac:(lia))
    as (m & em & r & _ & Hst & Hstep & _ & Hloop').
  rewrite Hloop in Hloop'. injection Hloop' as <-.
  destruct (state_at_index _ _ _ Hst) as [Him _].
  destruct (step_emit _ _ _ true Hstep)
    as (vA & b0 & g & Hnth & _ & _ & Hlast & _).
  apply Z.eqb_eq in Hlast.
  assert (Hm : m = 255%nat) by lia. subst m.
  assert (Hlen : (256 <= length tbl)%nat).
  { rewrite Him, Nat2Z.id in Hnth.
    assert (Hsome : nth_error tbl 255 <> None) by (rewrite Hnth; discriminate).
    apply nth_error_Some in Hsome. lia. }
  split; [rewrite (write_wave_table_long tbl Hlen), Hloop; reflexivity|].
  destruct (state_at_packing _ _ _ Hst) as [Htr Hreg].
  destruct (emit_pass tbl 255 em e true Hst Htr Hreg Hstep)
    as [[Hl Hwords] _].
  change (Z.of_nat 255 + 1) with 256 in *.
  change (256 / 32) with 8 in *.
  split; [lia|].
  intros idx Hidx.
  destruct (Hwords (idx / 32) ltac:(euclid)) as (word & Hw & Hok).
  destruct (emitted_bit_defined tbl 255 em e true Hst Hstep
              (Z.to_nat idx) ltac:(lia)) as (b & Hb & Hb01).
  exists word, b. split; [exact Hw|].
  split; [exact (word_ok_range _ _ _ Hok)|].
  split; [exact Hb|]. split; [exact Hb01|].
  destruct Hok as [_ Hbits]. rewrite Hbits by euclid.
  replace (idx mod 32 <? 32) with true by (symmetry; apply Z.ltb_lt; euclid).
  replace (32 * (idx / 32) + idx mod 32) with idx by euclid.
  unfold bitB. rewrite Hb. reflexivity.
Qed.

Lemma mslut_bit_layout_witness :
  encode_loop 256 GeneratorSpec.ref_wave_1000 init
  = Stopped (Finished ref_final_1000) /\
  (write_wave_table true GeneratorSpec.ref_wave_1000
   = ([(start_sin, 0); (start_sin90, 248)]
        ++ trace ref_final_1000 ++ mslutsel_writes (fam ref_final_1000),
      Returned) /\
   length (trace ref_final_1000) = 8%nat /\
   forall idx, 0 <= idx <= 255 ->
     exists word b,
       nth_error (trace ref_final_1000) (Z.to_nat (idx / 32))
       = Some (mslut (idx / 32), word)
       /\ 0 <= word < 2 ^ 32
       /\ emitted_bit GeneratorSpec.ref_wave_1000 (Z.to_nat idx) = Some b
       /\ (b = 0 \/ b = 1)
       /\ Z.testbit word (idx mod 32) = (b =? 1)).
Proof.
  assert (H : encode_loop 256 GeneratorSpec.ref_wave_1000 init
              = Stopped (Finished ref_final_1000))
    by (vm_compute; reflexivity).
  split; [exact H | exact (mslut_bit_layout _ _ H)].
Defined.

End CompressorProps.

(** * Properties of the step planner *)
Module PlannerProps.

Import Planner.
#[local] Open Scope Z_scope.

(** The resolutions the planner has a shift for. *)
Lemma shift_cases shift :
  0 <= shift <= 7 ->
  shift = 0 \/ shift = 1 \/ shift = 2 \/ shift = 3 \/ shift = 4 \/ shift = 5
  \/ shift = 6 \/ shift = 7.
Proof. lia. Qed.

Lemma find_shift_supported shift :
  0 <= shift <= 7 -> find_shift (Z.shiftr 256 shift) = shift.
Proof.
  intros H. destruct (shift_cases shift H)
    as [->|[->|[->|[->|[->|[->|[->| ->]]]]]]]; reflexivity.
Qed.

Lemma find_shift_unsupported res :
  (forall shift, 0 <= shift <= 7 -> res <> Z.shiftr 256 shift) ->
  find_shift res = 7.
Proof.
  intros H. unfold find_shift, for_shift.
  repeat match goal with
         | |- context [res =? Z.shiftr 256 ?k] =>
             replace (res =? Z.shiftr 256 k) with false
               by (symmetry; apply Z.eqb_neq; apply H; lia)
         end.
  reflexivity.
Qed.

Lemma cycle_half_nonneg shift : 0 <= 4 * Z.shiftl 1 (8 - shift) / 2.
Proof.
  apply Z.div_pos; [|lia].
  pose proof (proj2 (Z.shiftl_nonneg 1 (8 - shift)) ltac:(lia)). lia.
Qed.

Lemma plan_steps_at_target shift mscnt inv :
  plan_steps shift mscnt inv (Z.shiftr mscnt shift)
  = (if inv then 0 else 1, 0).
Proof.
  unfold plan_steps. cbv zeta. rewrite Z.sub_diag.
  replace (0 >? 4 * Z.shiftl 1 (8 - shift) / 2) with false.
  - reflexivity.
  - symmetry. rewrite Z.gtb_ltb. apply Z.ltb_ge. apply cycle_half_nonneg.
Qed.

(** C4, as stated, fails: resolution 1 (full steps) matches no shift in 0..7
    and the call does not raise. *)
Lemma unsupported_resolution_not_rejected :
  ~ (forall res raw inv target,
        (forall shift, 0 <= shift <= 7 -> res <> Z.shiftr 256 shift) ->
        exists ex, goto_step true (Some raw) inv target res = Raised ex).
Proof.
  intros H.
  destruct (H 1 0 false 1) as [ex Hex].
  - intros shift Hs. destruct (shift_cases shift Hs)
      as [->|[->|[->|[->|[->|[->|[->| ->]]]]]]]; discriminate.
  - vm_compute in Hex. discriminate Hex.
Qed.

(** C4, amended: on a resolution that is 256 >> shift for no shift in 0..7
    the call does not fail on that account; the loop leaves shift at 7, the
    last value tried, and the call plans exactly as it does for resolution 2. *)
Theorem unsupported_resolution_uses_last_shift (res raw target : Z) (inv : bool) :
  (forall shift, 0 <= shift <= 7 -> res <> Z.shiftr 256 shift) ->
  find_shift res = 7 /\
  goto_step true (Some raw) inv target res
  = goto_step true (Some raw) inv target 2 /\
  exists p, goto_step true (Some raw) inv target res = Done p.
Proof.
  intros H. pose proof (find_shift_unsupported res H) as Hs.
  split; [exact Hs|].
  unfold goto_step. rewrite Hs. change (find_shift 2) with 7.
  split; [reflexivity|]. cbn [negb].
  destruct (plan_steps 7 (Z.land raw 1023) inv target) as [dir cnt].
  destruct (cnt =? 0); eauto.
Qed.

Lemma unsupported_resolution_uses_last_shift_witness :
  (forall shift, 0 <= shift <= 7 -> 1 <> Z.shiftr 256 shift) /\
  (find_shift 1 = 7 /\
   goto_step true (Some 0) false 1 1 = goto_step true (Some 0) false 1 2 /\
   exists p, goto_step true (Some 0) false 1 1 = Done p).
Proof.
  assert (H : forall shift, 0 <= shift <= 7 -> 1 <> Z.shiftr 256 shift).
  { intros shift Hs. destruct (shift_cases shift Hs)
      as [->|[->|[->|[->|[->|[->|[->| ->]]]]]]]; vm_compute; discriminate. }
  split; [exact H | exact (unsupported_resolution_uses_last_shift 1 0 1 false H)].
Defined.

(** C5, on the code: from counter 1023 at resolution 256 the target 0 is one
    microstep ahead, and the call plans 1023 steps the other way, more than
    half of the cycle of 1024. *)
Theorem long_way_round :
  goto_step true (Some 1023) false 0 256 = Done (Move 0 1023)
  /\ shortest_distance 1024 1023 0 = 1
  /\ 1024 / 2 < pulses (goto_step true (Some 1023) false 0 256).
Proof. vm_compute. repeat split; reflexivity. Qed.

(** C6: at every supported resolution, a target equal to the masked counter
    shifted by the resolution's shift gives no move: zero steps, no pulse. *)
Theorem goto_step_at_target (raw shift : Z) (inv : bool) :
  0 <= shift <= 7 ->
  goto_step true (Some raw) inv
            (Z.shiftr (Z.land raw 0x3FF) shift) (Z.shiftr 256 shift)
  = Done NoMove
  /\ snd (plan_steps shift (Z.land raw 0x3FF) inv
                     (Z.shiftr (Z.land raw 0x3FF) shift)) = 0
  /\ pulses (goto_step true (Some raw) inv
                       (Z.shiftr (Z.land raw 0x3FF) shift)
                       (Z.shiftr 256 shift)) = 0.
Proof.
  intros Hs.
  assert (Hgo : goto_step true (Some raw) inv
                          (Z.shiftr (Z.land raw 0x3FF) shift)
                          (Z.shiftr 256 shift) = Done NoMove).
  { unfold goto_step. cbn [negb].
    rewrite (find_shift_supported shift Hs).
    change 0x3ff with 0x3FF. rewrite plan_steps_at_target. reflexivity. }
  rewrite Hgo, plan_steps_at_target. auto.
Qed.

Lemma goto_step_at_target_witness :
  0 <= 4 <= 7 /\
  (goto_step true (Some 777) true
             (Z.shiftr (Z.land 777 0x3FF) 4) (Z.shiftr 256 4)
   = Done NoMove
   /\ snd (plan_steps 4 (Z.land 777 0x3FF) true
                      (Z.shiftr (Z.land 777 0x3FF) 4)) = 0
   /\ pulses (goto_step true (Some 777) true
                        (Z.shiftr (Z.land 777 0x3FF) 4)
                        (Z.shiftr 256 4)) = 0).
Proof.
  split; [lia | apply (goto_step_at_target 777 4 true); lia].
Defined.

(** Where the two flips do give the shorter way round: exactly when the
    target is not more than half a cycle behind the position. *)
Lemma plan_steps_distance shift mscnt target inv :
  0 <= shift <= 7 -> 0 <= mscnt <= 1023 ->
  let cycle := 4 * Z.shiftl 1 (8 - shift) in
  let pos := Z.shiftr mscnt shift in
  0 <= target < cycle ->
  let steps := snd (plan_steps shift mscnt inv target) in
  (- (cycle / 2) <= target - pos ->
   steps = shortest_distance cycle pos target /\ steps <= cycle / 2)
  /\ (target - pos < - (cycle / 2) ->
      steps = pos - target /\ cycle / 2 < steps
      /\ shortest_distance cycle pos target < steps).
Proof.
  intros Hs Hm cycle pos Ht steps. subst steps. unfold plan_steps.
  fold cycle. fold pos. cbv zeta.
  assert (Hpos : 0 <= pos < cycle).
  { subst pos cycle. rewrite Z.shiftr_div_pow2 by lia.
    destruct (shift_cases shift Hs)
      as [->|[->|[->|[->|[->|[->|[->| ->]]]]]]];
      cbn; Z.div_mod_to_equations; lia. }
  assert (Hc : 8 <= cycle /\ cycle mod 2 = 0).
  { subst cycle. destruct (shift_cases shift Hs)
      as [->|[->|[->|[->|[->|[->|[->| ->]]]]]]]; cbn; lia. }
  clearbody cycle pos. unfold shortest_distance.
  rewrite Z.gtb_ltb.
  destruct (Z.ltb_spec (cycle / 2) (target - pos)) as [Hhalf|Hhalf].
  - destruct (Z.ltb_spec (cycle - (target - pos)) 0); [lia|]. simpl.
    split; [intros _ | intros Hneg; exfalso; Z.div_mod_to_equations; lia].
    rewrite (Z.mod_small (target - pos) cycle)
      by (Z.div_mod_to_equations; lia).
    Z.div_mod_to_equations; lia.
  - destruct (Z.ltb_spec (target - pos) 0) as [Hneg|Hneg]; simpl.
    + replace ((target - pos) mod cycle) with (target - pos + cycle).
      * split; intros H; Z.div_mod_to_equations; lia.
      * apply Z.mod_unique with (q := -1); lia.
    + rewrite (Z.mod_small (target - pos) cycle) by lia.
      split; intros H; Z.div_mod_to_equations; lia.
Qed.

End PlannerProps.

(** * Properties of the register image *)
Module RegisterProps.

Import Compressor CompressorSpec CompressorProps Command CommandSpec.
#[local] Open Scope Z_scope.

(** ** Stores into the W and X lists *)

Lemma nth_list_set_eq l k v d :
  (k < length l)%nat -> nth k (list_set l k v) d = v.
Proof.
  revert k. induction l as [|h t IH]; intros [|k] Hk; simpl in *; try lia.
  apply IH. lia.
Qed.

Lemma nth_list_set_ne l k j v d :
  j <> k -> nth j (list_set l k v) d = nth j l d.
Proof.
  revert k j. induction l as [|h t IH]; intros [|k] [|j] Hne; simpl;
    try reflexivity; try congruence.
  apply IH. congruence.
Qed.

Lemma Forall_list_set (P : Z -> Prop) l k v :
  Forall P l -> P v -> Forall P (list_set l k v).
Proof.
  intros Hl Hv. revert k. induction Hl as [|h t Hh Ht IH]; intros [|k]; simpl;
    constructor; auto.
Qed.

(** ** What the recorded codes and bounds say *)

Lemma boundaries_ok_later n g : boundaries_ok n g -> boundaries_ok (n + 1) g.
Proof.
  intros (H1 & H2 & H3). repeat split; auto; apply H1 in H; lia.
Qed.

Lemma switch_family_codes g a v :
  family_ok g -> codes_ok g -> 0 <= v <= 3 -> v = a + 1 ->
  Forall (fun u => 0 <= u <= 3) (w (switch_family g a (a + 1) v))
  /\ (s g < 3 ->
      nth (Z.to_nat (s g + 1)) (w (switch_family g a (a + 1) v)) 0 = a + 1).
Proof.
  intros (_ & _ & Hs & Hw & _) [Hrange _] Hv Hva. unfold switch_family. simpl.
  destruct (Z.ltb_spec (s g + 1) 4) as [Hlt|Hge].
  - split; [apply Forall_list_set; assumption|].
    intros _. rewrite nth_list_set_eq by lia. exact Hva.
  - split; [exact Hrange | lia].
Qed.

(** One entry keeps the recorded state consistent and, when a bit is
    emitted, leaves the delta recoverable from the bit and the active pair. *)
Lemma encode_delta_codes g n dA :
  family_ok g -> codes_ok g -> boundaries_ok n g -> 0 <= n ->
  let '(b, g') := encode_delta g n dA in
  codes_ok g' /\ boundaries_ok (n + 1) g' /\ (0 <= b -> dA = d0 g' + b).
Proof.
  intros Hg Hc Hb Hn. pose proof Hg as (H1 & H2 & H3 & H4 & H5).
  assert (Hkeep : codes_ok g /\ boundaries_ok (n + 1) g)
    by (split; [exact Hc | apply boundaries_ok_later; exact Hb]).
  assert (Hswitch : forall a v bit,
             0 <= v <= 3 -> v = a + 1 -> dA = a + bit -> 0 <= bit ->
             let g1 := switch_family g a (a + 1) v in
             codes_ok (record_boundary g1 bit n)
             /\ boundaries_ok (n + 1) (record_boundary g1 bit n)
             /\ (0 <= bit -> dA = d0 (record_boundary g1 bit n) + bit)).
  { intros a v bit Hv Hva HdA Hbit0.
    destruct (switch_family_codes g a v Hg Hc Hv Hva) as [Hw1 Hcode1].
    remember (switch_family g a (a + 1) v) as g1 eqn:Hg1.
    assert (Hs1 : s g1 = s g) by (subst g1; reflexivity).
    assert (Hx1 : x g1 = x g) by (subst g1; reflexivity).
    assert (Hd1 : d0 g1 = a) by (subst g1; reflexivity).
    clear Hg1. cbv zeta.
    destruct Hb as (Hb1 & Hb2 & Hb3).
    unfold record_boundary. rewrite Hs1, Hx1.
    destruct (Z.leb_spec 0 bit) as [Hbit|Hbit];
      destruct (Z.ltb_spec (s g) 3) as [Hlt|Hge]; simpl.
    - (* the switch is recorded *)
      split; [split; simpl; [exact Hw1 | intros _; rewrite Hd1; auto]|].
      split; [|intros _; lia].
      unfold boundaries_ok. cbn [s x].
      replace (Z.to_nat (s g + 1)) with (S (Z.to_nat (s g))) by lia.
      split; [|split].
      + intros k Hk. destruct (Nat.eq_dec k (Z.to_nat (s g))) as [->|Hne].
        * rewrite nth_list_set_eq by lia. lia.
        * rewrite nth_list_set_ne by exact Hne.
          specialize (Hb1 k ltac:(lia)). lia.
      + intros k Hk. rewrite nth_list_set_ne by lia. apply Hb2. lia.
      + intros k Hk.
        destruct (Nat.eq_dec (S k) (Z.to_nat (s g))) as [Heq|Hne].
        * rewrite Heq, nth_list_set_eq by lia.
          rewrite nth_list_set_ne by lia.
          specialize (Hb1 k ltac:(lia)). lia.
        * rewrite !nth_list_set_ne by lia. apply Hb3. lia.
    - (* no segment left: the switch is not recorded *)
      split; [split; simpl; [exact Hw1 | rewrite Hs1; lia]|].
      split; [|intros _; simpl; lia].
      unfold boundaries_ok. rewrite Hs1, Hx1.
      split; [|split; assumption].
      intros k Hk. specialize (Hb1 k Hk). lia.
    - lia.
    - lia. }
  unfold encode_delta.
  destruct (Z.eqb_spec dA (d0 g));
    [split; [tauto|]; split; [tauto | intros _; lia]|].
  destruct (Z.eqb_spec dA (d1 g));
    [split; [tauto|]; split; [tauto | intros _; lia]|].
  assert (Hnone : codes_ok (record_boundary g (-1) n)
                  /\ boundaries_ok (n + 1) (record_boundary g (-1) n)
                  /\ (0 <= -1 -> dA = d0 (record_boundary g (-1) n) + -1)).
  { unfold record_boundary. change (0 <=? -1) with false. simpl.
    split; [tauto|]. split; [tauto | lia]. }
  destruct (Z.ltb_spec dA (d0 g)).
  - destruct (Z.eqb_spec dA (-1)); [apply (Hswitch (-1) 0 0); lia|].
    destruct (Z.eqb_spec dA 0); [apply (Hswitch 0 1 0); lia|].
    destruct (Z.eqb_spec dA 1); [apply (Hswitch 1 2 0); lia|].
    exact Hnone.
  - rewrite Z.gtb_ltb. destruct (Z.ltb_spec (d1 g) dA); [|lia].
    destruct (Z.eqb_spec dA 1); [apply (Hswitch 0 1 1); lia|].
    destruct (Z.eqb_spec dA 2); [apply (Hswitch 1 2 1); lia|].
    destruct (Z.eqb_spec dA 3); [apply (Hswitch 2 3 1); lia|].
    exact Hnone.
Qed.

Lemma init_codes : codes_ok (fam init) /\ boundaries_ok 0 (fam init).
Proof.
  split; [split|split; [|split]]; simpl.
  - repeat constructor; lia.
  - reflexivity.
  - intros k Hk. lia.
  - intros [|[|[|k]]] Hk; simpl; try reflexivity; lia.
  - intros k Hk. lia.
Qed.

Lemma state_at_codes tbl n e :
  state_at tbl n = Some e ->
  codes_ok (fam e) /\ boundaries_ok (Z.of_nat n) (fam e).
Proof.
  revert e. induction n as [|n IH]; intros e H.
  - injection H as <-. exact init_codes.
  - apply state_at_succ in H. destruct H as (e0 & H0 & Hstep).
    destruct (IH _ H0) as [Hc Hb].
    destruct (state_at_index _ _ _ H0) as [Hi _].
    destruct (state_at_family _ _ _ H0) as [Hfam _].
    destruct (step_emit _ _ _ false Hstep)
      as (vA & b & g & _ & Henc & _ & _ & Hg & _).
    pose proof (encode_delta_codes (fam e0) (i e0) (vA - va e0) Hfam Hc) as Hspec.
    rewrite Henc, Hi in Hspec.
    destruct (Hspec Hb ltac:(lia)) as (Hc' & Hb' & _).
    rewrite Hg, Nat2Z.inj_succ. unfold Z.succ. auto.
Qed.

(** The family state the MSLUTSEL writes are taken from, however the loop
    stopped at index [n]. *)
Lemma stop_family tbl n em r e :
  state_at tbl n = Some em -> step tbl em = r ->
  (r = Failed e \/ r = Finished e \/ r = Fault e) ->
  family_ok (fam e) /\ codes_ok (fam e)
  /\ boundaries_ok (Z.of_nat n + 1) (fam e).
Proof.
  intros Hst Hstep Hr.
  destruct (state_at_codes _ _ _ Hst) as [Hc Hb].
  destruct (state_at_index _ _ _ Hst) as [Hi _].
  destruct (state_at_family _ _ _ Hst) as [Hfam _].
  assert (Henc : forall vA b g,
             encode_delta (fam em) (i em) (vA - va em) = (b, g) ->
             family_ok g /\ codes_ok g /\ boundaries_ok (Z.of_nat n + 1) g).
  { intros vA b g Henc.
    pose proof (encode_delta_spec (fam em) (i em) (vA - va em) Hfam) as H1.
    pose proof (encode_delta_codes (fam em) (i em) (vA - va em) Hfam Hc) as H2.
    rewrite Henc in H1. rewrite Henc, Hi in H2. destruct H1 as [Hg _].
    destruct (H2 Hb ltac:(lia)) as (Hc' & Hb' & _). auto. }
  destruct Hr as [->|[->| ->]].
  - destruct (step_failed _ _ _ Hstep) as (vA & b & g & _ & He & _ & Hg & _).
    rewrite Hg. eapply Henc; eauto.
  - destruct (step_emit _ _ _ true Hstep)
      as (vA & b & g & _ & He & _ & _ & Hg & _).
    rewrite Hg. eapply Henc; eauto.
  - destruct (step_fault _ _ _ Hstep) as [_ ->].
    split; [exact Hfam|]. split; [exact Hc|].
    apply boundaries_ok_later. exact Hb.
Qed.

(** On a table of at least 256 entries the loop stops as failed or as
    finished, never on a missing entry or on the iteration bound. *)
Lemma loop_stops tbl :
  (256 <= length tbl)%nat ->
  exists m em e,
    state_at tbl m = Some em
    /\ (step tbl em = Failed e \/ step tbl em = Finished e)
    /\ encode_loop 256 tbl init = Stopped (step tbl em).
Proof.
  intros Hlen.
  destruct (loop_run tbl 256 0 init eq_refl ltac:(lia))
    as (m & em & r & _ & Hst & Hstep & Hnn & Hloop).
  destruct (state_at_index _ _ _ Hst) as [Hi Hm].
  exists m, em. rewrite Hstep.
  destruct r as [e|e|e|e].
  - exfalso. apply (Hnn e). reflexivity.
  - exists e. auto.
  - exists e. auto.
  - apply step_fault in Hstep. destruct Hstep as [Hnone _].
    rewrite Hi, Nat2Z.id in Hnone. apply nth_error_None in Hnone. lia.
Qed.

(** ** Further properties of the compression *)

(** Each emitted bit, with the pair of deltas active after its pass, gives
    back the delta of its entry; while a segment is left, the W code of the
    current segment names that pair. *)
Theorem emitted_bit_recovers_delta (tbl : list Z) (n : nat) (e e' : enc) :
  state_at tbl n = Some e ->
  (step tbl e = Next e' \/ step tbl e = Finished e') ->
  exists b,
    emitted_bit tbl n = Some b /\ (b = 0 \/ b = 1)
    /\ delta tbl (Z.of_nat n) = d0 (fam e') + b
    /\ (s (fam e') < 3 ->
        delta tbl (Z.of_nat n)
        = nth (Z.to_nat (s (fam e'))) (w (fam e')) 0 - 1 + b).
Proof.
  intros Hst Hstep.
  assert (Hemit : exists last : bool,
             step tbl e = if last then Finished e' else Next e').
  { destruct Hstep as [H|H]; [exists false | exists true]; exact H. }
  destruct Hemit as [last Hlast].
  destruct (step_emit _ _ _ _ Hlast)
    as (vA & b & g & Hnth & Henc & Hb & _ & Hg & _).
  destruct (state_at_codes _ _ _ Hst) as [Hc Hbd].
  destruct (state_at_index _ _ _ Hst) as [Hi _].
  destruct (state_at_family _ _ _ Hst) as [Hfam Hva].
  exists b. split; [eapply emitted_bit_emit; eauto|]. split; [exact Hb|].
  pose proof (encode_delta_codes (fam e) (i e) (vA - va e) Hfam Hc) as Hspec.
  rewrite Henc, Hi in Hspec.
  destruct (Hspec Hbd ltac:(lia)) as ([_ Hcode] & _ & Hrec).
  assert (HdA : vA - va e = delta tbl (Z.of_nat n)).
  { rewrite Hi, Nat2Z.id in Hnth. unfold delta.
    rewrite (entry_nth_error _ _ _ Hnth), Hva. reflexivity. }
  rewrite Hg, <- HdA. split; [apply Hrec; lia|].
  intros Hs. rewrite (Hcode Hs). specialize (Hrec ltac:(lia)). lia.
Qed.

Lemma emitted_bit_recovers_delta_witness :
  state_at GeneratorSpec.ref_wave_1000 140 = Some (ref_state 140) /\
  (step GeneratorSpec.ref_wave_1000 (ref_state 140) = Next (ref_state 141)
   \/ step GeneratorSpec.ref_wave_1000 (ref_state 140)
      = Finished (ref_state 141)) /\
  exists b,
    emitted_bit GeneratorSpec.ref_wave_1000 140 = Some b /\ (b = 0 \/ b = 1)
    /\ delta GeneratorSpec.ref_wave_1000 (Z.of_nat 140)
       = d0 (fam (ref_state 141)) + b
    /\ (s (fam (ref_state 141)) < 3 ->
        delta GeneratorSpec.ref_wave_1000 (Z.of_nat 140)
        = nth (Z.to_nat (s (fam (ref_state 141))))
              (w (fam (ref_state 141))) 0 - 1 + b).
Proof.
  assert (H1 : state_at GeneratorSpec.ref_wave_1000 140 = Some (ref_state 140))
    by (vm_compute; reflexivity).
  assert (H2 : step GeneratorSpec.ref_wave_1000 (ref_state 140)
               = Next (ref_state 141) \/
               step GeneratorSpec.ref_wave_1000 (ref_state 140)
               = Finished (ref_state 141))
    by (left; vm_compute; reflexivity).
  split; [exact H1|]. split; [exact H2|].
  exact (emitted_bit_recovers_delta _ 140 _ _ H1 H2).
Defined.

(** Every value the call hands to [_set_tmc_field] fits its register field:
    32 bits for the words mslut0..mslut7, 2 bits for the W codes, 8 bits for
    the X bounds, 0 and 248 for the start values; and this for every table
    and every way the call ends. *)
Theorem written_values_fit (has_tmc : bool) (tbl : list Z) :
  Forall fits (fst (write_wave_table has_tmc tbl)).
Proof.
  destruct has_tmc; [|constructor].
  destruct (Nat.lt_ge_cases (length tbl) 256) as [Hshort|Hlen].
  { rewrite (write_wave_table_short tbl Hshort). constructor. }
  rewrite (write_wave_table_long tbl Hlen).
  destruct (loop_stops tbl Hlen) as (m & em & e & Hst & Hstep & Hloop).
  rewrite Hloop.
  destruct (state_at_index _ _ _ Hst) as [Hi Hm].
  assert (Htrace : exists N, 0 <= N <= 256 /\ trace_ok tbl N (trace e)).
  { destruct (state_at_packing _ _ _ Hst) as [Htr Hreg].
    destruct Hstep as [Hstep|Hstep].
    - destruct (step_failed _ _ _ Hstep)
        as (vA & b & g & _ & _ & _ & _ & _ & Heq).
      exists (Z.of_nat m). rewrite Heq. split; [lia | exact Htr].
    - destruct (emit_pass tbl m em e true Hst Htr Hreg Hstep) as [Htr' _].
      exists (Z.of_nat m + 1). split; [lia | exact Htr']. }
  destruct Htrace as (N & HN & Hlen' & Hwords).
  assert (Hfit_trace : Forall fits (trace e)).
  { apply Forall_forall. intros [f v] Hin.
    apply In_nth_error in Hin. destruct Hin as [k Hk].
    assert (Hklt : (k < length (trace e))%nat)
      by (apply nth_error_Some; rewrite Hk; discriminate).
    destruct (Hwords (Z.of_nat k) ltac:(lia)) as (word & Hw & Hok).
    rewrite Nat2Z.id, Hk in Hw. injection Hw as -> ->.
    simpl. split; [euclid | exact (word_ok_range _ _ _ Hok)]. }
  assert (Hfam : family_ok (fam e) /\ codes_ok (fam e)
                 /\ boundaries_ok (Z.of_nat m + 1) (fam e)).
  { destruct Hstep as [Hstep|Hstep];
      eapply (stop_family tbl m em _ e Hst eq_refl); rewrite Hstep; auto. }
  destruct Hfam as ((_ & _ & Hs & Hwl & Hxl) & (Hw & _) & (Hb1 & Hb2 & _)).
  assert (Hwv : forall k, 0 <= nth k (w (fam e)) 0 <= 3).
  { intros k. destruct (Nat.lt_ge_cases k (length (w (fam e)))) as [Hk|Hk].
    - rewrite Forall_forall in Hw. apply Hw. apply nth_In. exact Hk.
    - rewrite nth_overflow by exact Hk. lia. }
  assert (Hxv : forall k, (k < 3)%nat -> 0 <= nth k (x (fam e)) 0 <= 255).
  { intros k Hk. destruct (Nat.lt_ge_cases k (Z.to_nat (s (fam e)))) as [Hlt|Hge].
    - specialize (Hb1 k Hlt). lia.
    - rewrite (Hb2 k ltac:(lia)). lia. }
  destruct (step tbl em) as [e0|e0|e0|e0] eqn:Hr;
    destruct Hstep as [Heq|Heq]; try discriminate; injection Heq as ->;
    (repeat constructor; simpl; try reflexivity);
    apply Forall_app; (split; [exact Hfit_trace|]);
    unfold mslutsel_writes; repeat constructor; simpl;
    try apply Hwv; try (apply Hxv; lia).
Qed.

(** The segment bounds the call writes are in order: x1 <= x2 <= x3, all
    within 0..255. *)
Theorem recorded_bounds_sorted (tbl : list Z) (e : enc) :
  (encode_loop 256 tbl init = Stopped (Failed e)
   \/ encode_loop 256 tbl init = Stopped (Finished e)) ->
  0 <= nth 0 (x (fam e)) 0 /\ nth 0 (x (fam e)) 0 <= nth 1 (x (fam e)) 0
  /\ nth 1 (x (fam e)) 0 <= nth 2 (x (fam e)) 0
  /\ nth 2 (x (fam e)) 0 <= 255.
Proof.
  intros Hloop.
  destruct (loop_run tbl 256 0 init eq_refl ltac:(lia))
    as (m & em & r & _ & Hst & Hstep & _ & Hloop').
  destruct (state_at_index _ _ _ Hst) as [_ Hm].
  assert (Hr : r = Failed e \/ r = Finished e \/ r = Fault e).
  { destruct Hloop as [H|H]; rewrite H in Hloop'; injection Hloop' as <-; auto. }
  destruct (stop_family tbl m em r e Hst Hstep Hr)
    as ((_ & _ & Hs & _) & _ & (Hb1 & Hb2 & Hb3)).
  assert (Hcases : s (fam e) = 0 \/ s (fam e) = 1 \/ s (fam e) = 2
                   \/ s (fam e) = 3) by lia.
  destruct Hcases as [Hs0|[Hs0|[Hs0|Hs0]]]; rewrite Hs0 in Hb1, Hb2, Hb3.
  - rewrite (Hb2 0%nat), (Hb2 1%nat), (Hb2 2%nat) by (simpl; lia). lia.
  - pose proof (Hb1 0%nat ltac:(simpl; lia)).
    rewrite (Hb2 1%nat), (Hb2 2%nat) by (simpl; lia). lia.
  - pose proof (Hb1 0%nat ltac:(simpl; lia)).
    pose proof (Hb1 1%nat ltac:(simpl; lia)).
    pose proof (Hb3 0%nat ltac:(simpl; lia)).
    rewrite (Hb2 2%nat) by (simpl; lia). lia.
  - pose proof (Hb1 0%nat ltac:(simpl; lia)).
    pose proof (Hb1 2%nat ltac:(simpl; lia)).
    pose proof (Hb3 0%nat ltac:(simpl; lia)).
    pose proof (Hb3 1%nat ltac:(simpl; lia)). lia.
Qed.

Lemma recorded_bounds_sorted_witness :
  (encode_loop 256 GeneratorSpec.ref_wave_1000 init
   = Stopped (Failed ref_final_1000)
   \/ encode_loop 256 GeneratorSpec.ref_wave_1000 init
      = Stopped (Finished ref_final_1000)) /\
  (0 <= nth 0 (x (fam ref_final_1000)) 0
   /\ nth 0 (x (fam ref_final_1000)) 0 <= nth 1 (x (fam ref_final_1000)) 0
   /\ nth 1 (x (fam ref_final_1000)) 0 <= nth 2 (x (fam ref_final_1000)) 0
   /\ nth 2 (x (fam ref_final_1000)) 0 <= 255).
Proof.
  assert (H : encode_loop 256 GeneratorSpec.ref_wave_1000 init
              = Stopped (Failed ref_final_1000)
              \/ encode_loop 256 GeneratorSpec.ref_wave_1000 init
                 = Stopped (Finished ref_final_1000))
    by (right; vm_compute; reflexivity).
  split; [exact H | exact (recorded_bounds_sorted _ _ H)].
Defined.

(** A table of at least 256 entries is encoded to the last index exactly
    when every single-step delta of its first 256 entries lies in [-1, 3];
    nothing else stops the encoder. *)
Theorem encodes_iff_window (tbl : list Z) :
  (256 <= length tbl)%nat ->
  ((exists e, encode_loop 256 tbl init = Stopped (Finished e))
   <-> forall k, 0 <= k <= 255 -> -1 <= delta tbl k <= 3).
Proof.
  intros Hlen. split.
  - intros [e He] k Hk.
    destruct (delta_ok_dec tbl k) as [Hok|Hnok]; [exact Hok|].
    destruct (loop_first_bad tbl k Hlen Hk Hnok 256 0 init eq_refl
                ltac:(lia) ltac:(lia) ltac:(intros j Hj; lia))
      as (e' & em & Hloop & _).
    rewrite He in Hloop. discriminate Hloop.
  - intros Hall.
    apply (loop_all_ok tbl Hlen 256 0 init eq_refl ltac:(lia)).
    intros k Hk. apply Hall. lia.
Qed.

Lemma encodes_iff_window_witness :
  (256 <= length GeneratorSpec.ref_wave_1000)%nat /\
  ((exists e, encode_loop 256 GeneratorSpec.ref_wave_1000 init
              = Stopped (Finished e))
   <-> forall k, 0 <= k <= 255 ->
                 -1 <= delta GeneratorSpec.ref_wave_1000 k <= 3).
Proof.
  assert (Hlen : (256 <= length GeneratorSpec.ref_wave_1000)%nat)
    by (vm_compute; lia).
  split; [exact Hlen | exact (encodes_iff_window _ Hlen)].
Defined.


(** ** Entries past the first 256 *)

Lemma step_app tbl extra e :
  (Z.to_nat (i e) < length tbl)%nat ->
  step (tbl ++ extra) e = step tbl e.
Proof.
  intros Hlt. unfold step. rewrite nth_error_app1 by exact Hlt. reflexivity.
Qed.

Lemma encode_loop_app tbl extra :
  forall fuel e,
    0 <= i e -> (Z.to_nat (i e) + fuel <= length tbl)%nat ->
    encode_loop fuel (tbl ++ extra) e = encode_loop fuel tbl e.
Proof.
  induction fuel as [|fuel IH]; intros e Hi Hfuel; [reflexivity|].
  simpl. rewrite (step_app tbl extra e) by lia.
  destruct (step tbl e) as [e'|e'|e'|e'] eqn:Hstep; try reflexivity.
  destruct (step_emit _ _ _ false Hstep)
    as (vA & b & g & _ & _ & _ & _ & _ & _ & Hi' & _).
  apply IH; lia.
Qed.

(** Only the first 256 entries count: whatever follows them in the list
    changes neither the writes nor the outcome. *)
Theorem entries_past_256_ignored (tbl extra : list Z) :
  (length tbl = 256)%nat ->
  write_wave_table true (tbl ++ extra) = write_wave_table true tbl.
Proof.
  intros Hlen.
  rewrite (write_wave_table_long (tbl ++ extra))
    by (rewrite length_app; lia).
  rewrite (write_wave_table_long tbl) by lia.
  rewrite (encode_loop_app tbl extra 256 init) by (simpl; lia).
  reflexivity.
Qed.

Lemma entries_past_256_ignored_witness :
  (length GeneratorSpec.ref_wave_1000 = 256)%nat /\
  write_wave_table true (GeneratorSpec.ref_wave_1000 ++ [7; 300; -5])
  = write_wave_table true GeneratorSpec.ref_wave_1000.
Proof.
  assert (Hlen : (length GeneratorSpec.ref_wave_1000 = 256)%nat)
    by (vm_compute; reflexivity).
  split; [exact Hlen | exact (entries_past_256_ignored _ _ Hlen)].
Defined.

(** ** Generation followed by compression *)

(** A loop that finishes has read 256 entries and written the eight words. *)
Lemma finished_trace tbl e :
  encode_loop 256 tbl init = Stopped (Finished e) ->
  (256 <= length tbl)%nat /\ trace_ok tbl 256 (trace e).
Proof.
  intros Hloop.
  destruct (loop_run tbl 256 0 init eq_refl ltac:(lia))
    as (m & em & r & _ & Hst & Hstep & _ & Hloop').
  rewrite Hloop in Hloop'. injection Hloop' as <-.
  destruct (state_at_index _ _ _ Hst) as [Him _].
  destruct (step_emit _ _ _ true Hstep)
    as (vA & b & g & Hnth & _ & _ & Hlast & _).
  apply Z.eqb_eq in Hlast.
  assert (Hm : m = 255%nat) by lia. subst m.
  destruct (state_at_packing _ _ _ Hst) as [Htr Hreg].
  destruct (emit_pass tbl 255 em e true Hst Htr Hreg Hstep) as [Htr' _].
  split; [|exact Htr'].
  rewrite Him, Nat2Z.id in Hnth.
  assert (Hsome : nth_error tbl 255 <> None) by (rewrite Hnth; discriminate).
  apply nth_error_Some in Hsome. lia.
Qed.

Lemma finished_trace_fields tbl e :
  encode_loop 256 tbl init = Stopped (Finished e) ->
  map fst (trace e)
  = [mslut 0; mslut 1; mslut 2; mslut 3; mslut 4; mslut 5; mslut 6; mslut 7].
Proof.
  intros Hloop.
  destruct (finished_trace tbl e Hloop) as (_ & Hlen & Hwords).
  change (256 / 32) with 8 in Hlen, Hwords.
  destruct (trace e) as [|a0 [|a1 [|a2 [|a3 [|a4 [|a5 [|a6 [|a7 [|a8 t]]]]]]]]];
    try (exfalso; simpl length in Hlen; lia).
  destruct (Hwords 0 ltac:(lia)) as (v0 & H0 & _).
  destruct (Hwords 1 ltac:(lia)) as (v1 & H1 & _).
  destruct (Hwords 2 ltac:(lia)) as (v2 & H2 & _).
  destruct (Hwords 3 ltac:(lia)) as (v3 & H3 & _).
  destruct (Hwords 4 ltac:(lia)) as (v4 & H4 & _).
  destruct (Hwords 5 ltac:(lia)) as (v5 & H5 & _).
  destruct (Hwords 6 ltac:(lia)) as (v6 & H6 & _).
  destruct (Hwords 7 ltac:(lia)) as (v7 & H7 & _).
  cbn in H0, H1, H2, H3, H4, H5, H6, H7.
  injection H0 as ->. injection H1 as ->. injection H2 as ->.
  injection H3 as ->. injection H4 as ->. injection H5 as ->.
  injection H6 as ->. injection H7 as ->.
  reflexivity.
Qed.

(** The correction on a table the generator returned. *)
Lemma apply_on_generated L fac1000 tbl :
  Generator.generate_constant_torque_wave L fac1000 = Some tbl ->
  exists e,
    encode_loop 256 tbl init = Stopped (Finished e)
    /\ apply_linearity_correction L true fac1000
       = ([(start_sin, 0); (start_sin90, 248)]
            ++ trace e ++ mslutsel_writes (fam e), Completed).
Proof.
  intros Hgen.
  destruct (generated_table_encodes L fac1000 tbl Hgen) as [e Hloop].
  destruct (finished_trace tbl e Hloop) as [Hlen _].
  exists e. split; [exact Hloop|].
  unfold apply_linearity_correction. cbn [negb].
  rewrite Hgen, (write_wave_table_long tbl Hlen), Hloop. reflexivity.
Qed.

(** Whatever the C library, when the generator returns a table the
    correction is applied in full: the encoder never stops early on it, the
    call completes, and the writes are the 17 fields of a register image,
    each once and in order. *)
Theorem apply_writes_full_image (L : Generator.libm) (fac1000 : Z)
    (tbl : list Z) :
  Generator.generate_constant_torque_wave L fac1000 = Some tbl ->
  exists e,
    encode_loop 256 tbl init = Stopped (Finished e)
    /\ apply_linearity_correction L true fac1000
       = ([(start_sin, 0); (start_sin90, 248)]
            ++ trace e ++ mslutsel_writes (fam e), Completed)
    /\ map fst (fst (apply_linearity_correction L true fac1000))
       = image_fields.
Proof.
  intros Hgen.
  destruct (apply_on_generated L fac1000 tbl Hgen) as (e & Hloop & Happly).
  exists e. split; [exact Hloop|]. split; [exact Happly|].
  rewrite Happly.
  change (fst ([(start_sin, 0); (start_sin90, 248)]
                 ++ trace e ++ mslutsel_writes (fam e), Completed))
    with ([(start_sin, 0); (start_sin90, 248)]
            ++ trace e ++ mslutsel_writes (fam e)).
  pose proof (finished_trace_fields tbl e Hloop) as Hfields.
  unfold write in *. rewrite map_app, map_app, Hfields. reflexivity.
Qed.

Lemma apply_writes_full_image_witness :
  Generator.generate_constant_torque_wave Generator.ref_libm 1000
  = Some GeneratorSpec.ref_wave_1000 /\
  exists e,
    encode_loop 256 GeneratorSpec.ref_wave_1000 init = Stopped (Finished e)
    /\ apply_linearity_correction Generator.ref_libm true 1000
       = ([(start_sin, 0); (start_sin90, 248)]
            ++ trace e ++ mslutsel_writes (fam e), Completed)
    /\ map fst (fst (apply_linearity_correction Generator.ref_libm true 1000))
       = image_fields.
Proof.
  assert (H : Generator.generate_constant_torque_wave Generator.ref_libm 1000
              = Some GeneratorSpec.ref_wave_1000)
    by (vm_compute; reflexivity).
  split; [exact H | exact (apply_writes_full_image _ _ _ H)].
Defined.

Lemma wave_commands_checked : forallb wave_command_ok wave_offsets = true.
Proof. vm_compute. reflexivity. Qed.

(** Under the reference C library every registered TMC_SET_WAVE command
    stores a factor in 1000..1200, generates a table that rises from 0 to 248
    without ever falling, and encodes it to the end with two family switches,
    both recorded, so that one segment is left unused. *)
Theorem wave_commands_complete (factor_offset : Z) :
  In factor_offset wave_offsets ->
  exists tbl e,
    Generator.generate_constant_torque_wave Generator.ref_libm
      (1000 + factor_offset) = Some tbl
    /\ (forall k, 0 <= k < 255 -> entry tbl k <= entry tbl (k + 1))
    /\ entry tbl 0 = 0 /\ entry tbl 255 = 248
    /\ encode_loop 256 tbl init = Stopped (Finished e)
    /\ s (fam e) = 2
    /\ cmd_set_wave_with_offset Generator.ref_libm true factor_offset
       = (1000 + factor_offset,
          [(start_sin, 0); (start_sin90, 248)]
            ++ trace e ++ mslutsel_writes (fam e), Completed)
    /\ 1000 <= 1000 + factor_offset <= 1200.
Proof.
  intros Hin.
  pose proof wave_commands_checked as Hall.
  rewrite forallb_forall in Hall. specialize (Hall _ Hin).
  unfold wave_command_ok in Hall.
  destruct (Generator.generate_constant_torque_wave Generator.ref_libm
              (1000 + factor_offset)) as [tbl|] eqn:Hgen; [|discriminate].
  destruct (encode_loop 256 tbl init) as [[e|e|e|e]|e] eqn:Hloop;
    try discriminate.
  apply andb_true_iff in Hall. destruct Hall as [Hall H255].
  apply andb_true_iff in Hall. destruct Hall as [Hall H0].
  apply andb_true_iff in Hall. destruct Hall as [Hs Hmono].
  exists tbl, e. split; [reflexivity|].
  split.
  { intros k Hk. rewrite forallb_forall in Hmono.
    specialize (Hmono (Z.to_nat k) ltac:(apply in_seq; lia)).
    apply Z.leb_le in Hmono. unfold entry.
    replace (Z.to_nat (k + 1)) with (S (Z.to_nat k)) by lia. exact Hmono. }
  split; [apply Z.eqb_eq in H0; exact H0|].
  split; [apply Z.eqb_eq in H255; exact H255|].
  split; [exact Hloop|]. split; [apply Z.eqb_eq; exact Hs|].
  split.
  - destruct (apply_on_generated _ _ _ Hgen) as (e' & Hloop' & Happly).
    rewrite Hloop in Hloop'. injection Hloop' as <-.
    unfold cmd_set_wave_with_offset. rewrite Happly. reflexivity.
  - unfold wave_offsets in Hin. apply in_map_iff in Hin.
    destruct Hin as (k & <- & Hk). apply in_seq in Hk. lia.
Qed.

Lemma wave_commands_complete_witness :
  In 50 wave_offsets /\
  exists tbl e,
    Generator.generate_constant_torque_wave Generator.ref_libm
      (1000 + 50) = Some tbl
    /\ (forall k, 0 <= k < 255 -> entry tbl k <= entry tbl (k + 1))
    /\ entry tbl 0 = 0 /\ entry tbl 255 = 248
    /\ encode_loop 256 tbl init = Stopped (Finished e)
    /\ s (fam e) = 2
    /\ cmd_set_wave_with_offset Generator.ref_libm true 50
       = (1000 + 50,
          [(start_sin, 0); (start_sin90, 248)]
            ++ trace e ++ mslutsel_writes (fam e), Completed)
    /\ 1000 <= 1000 + 50 <= 1200.
Proof.
  assert (Hin : In 50 wave_offsets).
  { unfold wave_offsets. apply in_map_iff. exists 5%nat.
    split; [reflexivity | apply in_seq; lia]. }
  split; [exact Hin | exact (wave_commands_complete 50 Hin)].
Defined.

End RegisterProps.

(** * Properties of the step command and of the pin events *)
Module MotionProps.

Import Planner PlannerProps Command CommandSpec.
#[local] Open Scope Z_scope.

(** ** The plan and its direction *)

(** The plan on an inverted axis is the plan on an uninverted one with the
    direction reversed. *)
Lemma plan_steps_inverted shift mscnt target :
  plan_steps shift mscnt true target
  = (1 - fst (plan_steps shift mscnt false target),
     snd (plan_steps shift mscnt false target)).
Proof.
  unfold plan_steps. cbv zeta.
  destruct (target - Z.shiftr mscnt shift >? 4 * Z.shiftl 1 (8 - shift) / 2).
  - destruct (4 * Z.shiftl 1 (8 - shift) - (target - Z.shiftr mscnt shift) <? 0);
      reflexivity.
  - destruct (target - Z.shiftr mscnt shift <? 0); reflexivity.
Qed.

(** What a plan amounts to, for every input: a non-negative count, a
    direction that is 0 or 1, and a displacement that is the distance to the
    target or that distance less one cycle. *)
Lemma plan_steps_displacement shift mscnt inv target :
  let cycle := 4 * Z.shiftl 1 (8 - shift) in
  let pos := Z.shiftr mscnt shift in
  let p := plan_steps shift mscnt inv target in
  0 <= snd p /\ (fst p = 0 \/ fst p = 1)
  /\ (displacement inv p = target - pos
      \/ displacement inv p = target - pos - cycle).
Proof.
  intros cycle pos p. subst p. unfold plan_steps, displacement.
  fold cycle. fold pos. cbv zeta.
  pose proof (cycle_half_nonneg shift) as Hhalf. fold cycle in Hhalf.
  clearbody cycle pos. rewrite Z.gtb_ltb.
  destruct (Z.ltb_spec (cycle / 2) (target - pos)) as [Hgt|Hle].
  - destruct (Z.ltb_spec (cycle - (target - pos)) 0) as [Hneg|Hnn];
      destruct inv; cbn; lia.
  - destruct (Z.ltb_spec (target - pos) 0) as [Hneg|Hnn];
      destruct inv; cbn; lia.
Qed.

(** The plan always ends on the target: for every counter value, target,
    shift and axis setting, moving the planned count in the planned
    direction brings the position to the target modulo the cycle, and the
    count is never negative. *)
Theorem plan_reaches_target (shift mscnt target : Z) (inv : bool) :
  let cycle := 4 * Z.shiftl 1 (8 - shift) in
  let pos := Z.shiftr mscnt shift in
  let p := plan_steps shift mscnt inv target in
  0 <= snd p /\ (fst p = 0 \/ fst p = 1)
  /\ (pos + displacement inv p - target) mod cycle = 0.
Proof.
  intros cycle pos p.
  destruct (plan_steps_displacement shift mscnt inv target)
    as (Hnn & Hdir & Hdisp).
  fold cycle pos p in Hnn, Hdir, Hdisp.
  split; [exact Hnn|]. split; [exact Hdir|].
  destruct Hdisp as [-> | ->].
  - replace (pos + (target - pos) - target) with 0 by lia.
    apply Zmod_0_l.
  - replace (pos + (target - pos - cycle) - target) with (-1 * cycle) by lia.
    apply Z_mod_mult.
Qed.

(** Axis inversion reverses the planned direction and leaves the count
    unchanged. *)
Theorem inversion_reverses_direction (shift mscnt target : Z) :
  fst (plan_steps shift mscnt true target)
  = 1 - fst (plan_steps shift mscnt false target)
  /\ snd (plan_steps shift mscnt true target)
     = snd (plan_steps shift mscnt false target).
Proof. rewrite plan_steps_inverted. split; reflexivity. Qed.

(** When the target is not more than half a cycle behind the position, the
    planned count is the length of the shorter way round and is at most half
    a cycle. *)
Theorem shortest_when_not_far_behind (shift mscnt target : Z) (inv : bool) :
  0 <= shift <= 7 -> 0 <= mscnt <= 1023 ->
  0 <= target < 4 * Z.shiftl 1 (8 - shift) ->
  - (4 * Z.shiftl 1 (8 - shift) / 2) <= target - Z.shiftr mscnt shift ->
  snd (plan_steps shift mscnt inv target)
  = shortest_distance (4 * Z.shiftl 1 (8 - shift))
                      (Z.shiftr mscnt shift) target
  /\ snd (plan_steps shift mscnt inv target)
     <= 4 * Z.shiftl 1 (8 - shift) / 2.
Proof.
  intros Hs Hm Ht Hnear.
  destruct (plan_steps_distance shift mscnt target inv Hs Hm Ht) as [Hgood _].
  exact (Hgood Hnear).
Qed.

Lemma shortest_when_not_far_behind_witness :
  0 <= 2 <= 7 /\ 0 <= 40 <= 1023 /\
  0 <= 250 < 4 * Z.shiftl 1 (8 - 2) /\
  - (4 * Z.shiftl 1 (8 - 2) / 2) <= 250 - Z.shiftr 40 2 /\
  snd (plan_steps 2 40 false 250)
  = shortest_distance (4 * Z.shiftl 1 (8 - 2)) (Z.shiftr 40 2) 250
  /\ snd (plan_steps 2 40 false 250) <= 4 * Z.shiftl 1 (8 - 2) / 2.
Proof.
  assert (H1 : 0 <= 2 <= 7) by lia.
  assert (H2 : 0 <= 40 <= 1023) by lia.
  assert (H3 : 0 <= 250 < 4 * Z.shiftl 1 (8 - 2)) by (vm_compute; split; congruence).
  assert (H4 : - (4 * Z.shiftl 1 (8 - 2) / 2) <= 250 - Z.shiftr 40 2)
    by (vm_compute; congruence).
  split; [exact H1|]. split; [exact H2|]. split; [exact H3|].
  split; [exact H4|].
  exact (shortest_when_not_far_behind 2 40 250 false H1 H2 H3 H4).
Defined.

(** ** From the MRES field to the shift *)

Lemma shiftr_256_high m : 9 <= m -> Z.shiftr 256 m = 0.
Proof.
  intros Hm. rewrite Z.shiftr_div_pow2 by lia.
  apply Z.div_small. split; [lia|].
  assert (2 ^ 9 <= 2 ^ m) by (apply Z.pow_le_mono_r; lia).
  change (2 ^ 9) with 512 in H. lia.
Qed.

(** The shift the planner works with, from what the MRES field reads: the
    field value itself up to 7, 7 for every larger value (so that full
    steps, MRES = 8, are planned as 2 microsteps), and 0 when the field
    cannot be read. *)
Theorem shift_from_mres (mres : option Z) :
  find_shift (get_microstep_resolution mres)
  = match mres with
    | Some m => if m <? 0 then 0 else Z.min m 7
    | None => 0
    end.
Proof.
  destruct mres as [m|]; [|reflexivity].
  unfold get_microstep_resolution.
  destruct (Z.ltb_spec m 0) as [Hneg|Hnn]; [reflexivity|].
  destruct (Z_le_gt_dec m 7) as [Hle|Hgt].
  - rewrite find_shift_supported by lia. lia.
  - rewrite Z.min_r by lia.
    destruct (Z.eq_dec m 8) as [->|Hne]; [reflexivity|].
    rewrite shiftr_256_high by lia. reflexivity.
Qed.

(** ** The step command *)

Lemma mask_cases m :
  0 <= m <= 7 -> 4 * Z.shiftr 256 m - 1 = Z.ones (10 - m)
                 /\ 4 * Z.shiftl 1 (8 - m) = 2 ^ (10 - m).
Proof.
  intros H. destruct (shift_cases m H)
    as [->|[->|[->|[->|[->|[->|[->| ->]]]]]]]; split; reflexivity.
Qed.

(** A step command at a supported resolution: the target is reduced modulo
    the cycle of 4 * resolution microsteps, the planner works with the shift
    of that resolution, the call plans a move and does not raise, and the
    count is less than a full cycle. *)
Theorem step_command_within_cycle (m raw target_step : Z) (inv : bool) :
  0 <= m <= 7 ->
  let cycle := 4 * Z.shiftr 256 m in
  let r := cmd_set_step_with_position true (Some m) (Some raw) inv target_step in
  fst r = target_step mod cycle
  /\ snd r = goto_step true (Some raw) inv (target_step mod cycle)
                       (Z.shiftr 256 m)
  /\ (exists p, snd r = Done p)
  /\ 0 <= pulses (snd r) < cycle.
Proof.
  intros Hm cycle r. subst r. unfold cmd_set_step_with_position.
  unfold get_microstep_resolution.
  replace (m <? 0) with false by (symmetry; apply Z.ltb_ge; lia).
  cbv zeta. cbn [fst snd].
  destruct (mask_cases m Hm) as [Hmask Hcnt].
  assert (Hcycle : cycle = 2 ^ (10 - m)).
  { subst cycle. destruct (shift_cases m Hm)
      as [->|[->|[->|[->|[->|[->|[->| ->]]]]]]]; reflexivity. }
  rewrite Hmask, Z.land_ones by lia. rewrite <- Hcycle.
  split; [reflexivity|]. split; [reflexivity|].
  unfold goto_step. cbn [negb]. rewrite (find_shift_supported m Hm).
  assert (Hpos : 0 < cycle) by (rewrite Hcycle; apply Z.pow_pos_nonneg; lia).
  assert (Ht : 0 <= target_step mod cycle < cycle)
    by (apply Z.mod_pos_bound; exact Hpos).
  assert (Hraw : 0 <= Z.land raw 0x3ff <= 1023).
  { change (Z.land raw 0x3ff) with (Z.land raw (Z.ones 10)).
    rewrite Z.land_ones by lia.
    change (2 ^ 10) with 1024.
    pose proof (Z.mod_pos_bound raw 1024 ltac:(lia)). lia. }
  pose proof (plan_steps_distance m (Z.land raw 0x3ff) (target_step mod cycle)
                inv Hm Hraw) as Hdist.
  cbv zeta in Hdist. rewrite Hcnt, <- Hcycle in Hdist.
  specialize (Hdist Ht). destruct Hdist as [Hnear Hfar].
  pose proof (plan_steps_displacement m (Z.land raw 0x3ff) inv
                (target_step mod cycle)) as (Hnn & _).
  assert (Hposn : 0 <= Z.shiftr (Z.land raw 0x3ff) m < cycle).
  { rewrite Z.shiftr_div_pow2 by lia. rewrite Hcycle.
    destruct (shift_cases m Hm)
      as [->|[->|[->|[->|[->|[->|[->| ->]]]]]]];
      cbn; Z.div_mod_to_equations; lia. }
  assert (Hbound : snd (plan_steps m (Z.land raw 0x3ff) inv
                                   (target_step mod cycle)) < cycle).
  { destruct (Z_le_gt_dec (- (cycle / 2))
                (target_step mod cycle - Z.shiftr (Z.land raw 0x3ff) m))
      as [Hn|Hf].
    - destruct (Hnear Hn) as [_ Hle].
      assert (cycle / 2 < cycle) by (Z.div_mod_to_equations; lia). lia.
    - destruct (Hfar ltac:(lia)) as [Heq _]. lia. }
  destruct (plan_steps m (Z.land raw 0x3ff) inv (target_step mod cycle))
    as [dir cnt].
  cbn [snd] in Hnn, Hbound. clearbody cycle.
  destruct (Z.eqb_spec cnt 0); (split; [eauto|]); cbn [pulses]; lia.
Qed.

Lemma step_command_within_cycle_witness :
  0 <= 4 <= 7 /\
  (let cycle := 4 * Z.shiftr 256 4 in
   let r := cmd_set_step_with_position true (Some 4) (Some 1000) false 1050 in
   fst r = 1050 mod cycle
   /\ snd r = goto_step true (Some 1000) false (1050 mod cycle)
                        (Z.shiftr 256 4)
   /\ (exists p, snd r = Done p)
   /\ 0 <= pulses (snd r) < cycle).
Proof.
  split; [lia | apply (step_command_within_cycle 4 1000 1050 false); lia].
Defined.

(** ** Pin events *)

Lemma step_loop_levels n sinv t dt :
  map (fun ev => (ev_pin ev, ev_level ev)) (step_loop n true sinv t dt)
  = concat (repeat [(StepPin, if sinv then 0 else 1);
                    (StepPin, if sinv then 1 else 0)] n).
Proof.
  revert t. induction n as [|n IH]; intros t; [reflexivity|].
  simpl. rewrite IH. reflexivity.
Qed.

(** The pin events of a move, in call order: one write of the direction pin,
    at the planned direction reversed on an inverted axis, then for each
    step one active and one inactive level on the step pin; and no event at
    all when either pin is missing. *)
Theorem move_events (inv sinv : bool) (steps direction : Z) (t : float) :
  map (fun ev => (ev_pin ev, ev_level ev))
      (perform_force_move_steps true true inv sinv steps direction t)
  = (DirPin, if inv then 1 - direction else direction)
      :: concat (repeat [(StepPin, if sinv then 0 else 1);
                         (StepPin, if sinv then 1 else 0)] (Z.to_nat steps))
  /\ (forall has_dir,
         perform_force_move_steps false has_dir inv sinv steps direction t = [])
  /\ (forall has_step,
         perform_force_move_steps has_step false inv sinv steps direction t = []).
Proof.
  split; [|split].
  - unfold perform_force_move_steps, set_dir_pin_direct. cbn [negb orb].
    cbv zeta. rewrite map_app, step_loop_levels.
    destruct inv; reflexivity.
  - intros has_dir. reflexivity.
  - intros [|]; reflexivity.
Qed.

(** The axis inversion has no effect on the pin events of a call: it
    reverses the planned direction and is applied once more when the
    direction pin is written, so the level written is the same. *)
Theorem inversion_cancels_on_pin (has_tmc : bool) (mscnt_reg : option Z)
    (has_step_pin has_dir_pin sinv : bool)
    (target_step microstep_resolution : Z) (t : float) :
  goto_step_events has_tmc mscnt_reg has_step_pin has_dir_pin true sinv
                   target_step microstep_resolution t
  = goto_step_events has_tmc mscnt_reg has_step_pin has_dir_pin false sinv
                     target_step microstep_resolution t.
Proof.
  unfold goto_step_events, goto_step.
  destruct has_tmc; [|reflexivity]. cbn [negb].
  destruct mscnt_reg as [r|]; [|reflexivity].
  rewrite plan_steps_inverted.
  destruct (plan_steps (find_shift microstep_resolution) (Z.land r 0x3ff)
                       false target_step) as [dir cnt].
  cbn [fst snd]. destruct (cnt =? 0); [reflexivity|].
  unfold perform_force_move_steps, set_dir_pin_direct.
  destruct has_step_pin, has_dir_pin; try reflexivity.
  cbn [negb orb]. cbv zeta.
  replace (1 - (1 - dir)) with dir by lia. reflexivity.
Qed.

End MotionProps.
